(** * mkey: a Snowflake-style identifier generator and its string encodings

    A shallow embedding of [mkey.go] and the verification of its
    specification.  Go's [int64] is modelled as [Z] with the wrap-around
    written out ([Int64.wrap]); a Go [byte] is an [ascii]; a Go [string] is a
    Rocq [string] and a [[]byte] is a [list byte]; the mutable generator
    ([Node]) is a record threaded through a small state monad together with
    the samples of the monotonic clock it reads. *)

From Stdlib Require Import ZArith List String Ascii Bool Lia Sorted.
From Equations Require Import Equations.
Import ListNotations.

Local Open Scope Z_scope.

(** ** Machine integers *)

Module Int64.

Definition min_int : Z := - 2 ^ 63.
Definition max_int : Z := 2 ^ 63 - 1.

Definition in_range (z : Z) : Prop := min_int <= z <= max_int.

(** Two's complement wrap-around of an exact result to 64 signed bits. *)
Definition wrap (z : Z) : Z := (z + 2 ^ 63) mod 2 ^ 64 - 2 ^ 63.

Definition add (a b : Z) : Z := wrap (a + b).
Definition mul (a b : Z) : Z := wrap (a * b).

(** [a << k] for an unsigned shift count: the bits shifted out are lost,
    and a count of 64 or more gives 0. *)
Definition shl (a k : Z) : Z := if k <? 64 then wrap (Z.shiftl a k) else 0.

(** [a >> k] on a signed operand is the arithmetic shift. *)
Definition shr (a k : Z) : Z := Z.shiftr a k.

(** [a / b] and [a % b] truncate toward zero; the quotient is exact for
    every divisor other than -1, so no wrap-around is written. *)
Definition quo (a b : Z) : Z := Z.quot a b.
Definition rem (a b : Z) : Z := Z.rem a b.

End Int64.

Module Uint64.

Definition max_uint : Z := 2 ^ 64 - 1.
Definition in_range (z : Z) : Prop := 0 <= z <= max_uint.
Definition wrap (z : Z) : Z := z mod 2 ^ 64.

(** The conversion [uint64(x)] of a signed value, and back. *)
Definition of_int64 (x : Z) : Z := wrap x.
Definition to_int64 (u : Z) : Z := Int64.wrap u.

End Uint64.

Module Uint8.

Definition in_range (z : Z) : Prop := 0 <= z <= 255.
Definition wrap (z : Z) : Z := z mod 2 ^ 8.
Definition add (a b : Z) : Z := wrap (a + b).

End Uint8.

(** ** Bytes, strings and arrays *)

Definition byte := ascii.

Definition Z_of_byte (c : byte) : Z := Z.of_N (N_of_ascii c).

(** The conversion [byte(i)] keeps the low eight bits. *)
Definition byte_of_Z (z : Z) : byte := ascii_of_N (Z.to_N (z mod 256)).

Definition xFF : byte := byte_of_Z 255.

Definition byte_eqb (a b : byte) : bool := Ascii.eqb a b.

(** [[]byte(s)] and [string(b)]. *)
Definition bytes_of (s : string) : list byte := list_ascii_of_string s.
Definition string_of (b : list byte) : string := string_of_list_ascii b.

(** [s[i]] on a string; the index is in range at every use below. *)
Definition str_at (s : string) (i : Z) : byte :=
  match String.get (Z.to_nat i) s with
  | Some c => c
  | None => zero
  end.

Definition str_len (s : string) : Z := Z.of_nat (String.length s).

(** A fixed-size array [[256]byte] read and written at a byte index. *)
Fixpoint array_set (a : list byte) (i : nat) (v : byte) : list byte :=
  match a, i with
  | [], _ => []
  | _ :: r, O => v :: r
  | x :: r, S j => x :: array_set r j v
  end.

Definition array_get (a : list byte) (c : byte) : byte :=
  nth (nat_of_ascii c) a zero.

(** ** Encoding tables *)

Definition encodeBase32Map : string := "7w3x5h9k2m4p6q8r1sdyfgjtnvzbcaeu".
Definition encodeBase58Map : string :=
  "123456789abcdefghijkmnopqrstuvwxyzABCDEFGHJKLMNPQRSTUVWXYZ".
Definition encodeBase64Map : string :=
  "ABCDEFGHIJKLMNOPQRSTUVWXYZabcdefghijklmnopqrstuvwxyz0123456789-_".

(** [initDecodeMap]: every entry is first set to 0xFF, then the entry of the
    [i]-th character of the alphabet is set to [byte(i)]. *)
Definition initDecodeMap (encodeMap : string) : list byte :=
  fold_left
    (fun decodeMap i =>
       array_set decodeMap (nat_of_ascii (str_at encodeMap (Z.of_nat i)))
                 (byte_of_Z (Z.of_nat i)))
    (seq 0 (String.length encodeMap))
    (repeat xFF 256).

Definition decodeBase32Map : list byte :=
  Eval vm_compute in initDecodeMap encodeBase32Map.
Definition decodeBase58Map : list byte :=
  Eval vm_compute in initDecodeMap encodeBase58Map.
Definition decodeBase64Map : list byte :=
  Eval vm_compute in initDecodeMap encodeBase64Map.

(** ** Identifiers and errors *)

Definition ID := Z.

Inductive error : Type :=
| ErrNodeBits                 (* "NodeBits must be <= 16" *)
| ErrStepBits                 (* "StepBits must be <= 16" *)
| ErrBitsSum                  (* "NodeBits + StepBits must be <= 22" *)
| ErrNodeRange (nodeMax : Z)  (* "Node must be between 0 and %d" *)
| ErrCountPositive            (* "count must be positive" *)
| ErrCountMax (stepMask : Z)  (* "count must be <= %d" *)
| ErrInvalidBase32            (* "invalid base32 character" *)
| ErrInvalidBase58            (* "invalid base58 character" *)
| CorruptInputError (pos : Z) (* encoding/base64 *)
| ErrSyntax                   (* strconv.ErrSyntax *)
| ErrRange.                   (* strconv.ErrRange *)

(** ** Base32 and Base58 *)

(** The number of significant bits of a positive integer (0 otherwise): the
    measure by which the encoding loops terminate. *)
Definition bitlen (f : Z) : nat := Z.to_nat (Z.log2 (2 * f)).

(** Dividing a positive integer by a radix of at least 2 shortens it. *)
Ltac bitlen_decreases :=
  match goal with
  | |- (bitlen (?f / ?r) < bitlen ?f)%nat =>
      rewrite <- (Z.quot_div_nonneg f r) by lia
  | _ => idtac
  end;
  match goal with
  | |- (bitlen (Z.quot ?f ?r) < bitlen ?f)%nat =>
      unfold bitlen;
      let Hle := fresh "Hle" in
      assert (Hle : 2 * Z.quot f r <= f)
        by (rewrite Z.quot_div_nonneg by lia;
            pose proof (Z.mul_div_le f r ltac:(lia));
            assert (0 <= f / r) by (apply Z.div_pos; lia); nia);
      rewrite (Z.log2_double f) by lia;
      pose proof (Z.log2_le_mono _ _ Hle);
      pose proof (Z.log2_nonneg (2 * Z.quot f r));
      lia
  end.

(** The loop [for f > 0 { b = append(b, encodeBase32Map[f%32]); f /= 32 }]. *)
Equations? base32_loop (f : Z) (b : list byte) : list byte
  by wf (bitlen f) lt :=
  base32_loop f b with Z_lt_dec 0 f := {
    | left _ := base32_loop (Int64.quo f 32)
                  (b ++ [str_at encodeBase32Map (Int64.rem f 32)]);
    | right _ := b }.
Proof. unfold Int64.quo. bitlen_decreases. Qed.

Definition Base32 (f : ID) : string :=
  if f =? 0 then string_of [str_at encodeBase32Map 0]
  else string_of (rev (base32_loop f [])).

Equations? base58_loop (f : Z) (b : list byte) : list byte
  by wf (bitlen f) lt :=
  base58_loop f b with Z_lt_dec 0 f := {
    | left _ := base58_loop (Int64.quo f 58)
                  (b ++ [str_at encodeBase58Map (Int64.rem f 58)]);
    | right _ := b }.
Proof. unfold Int64.quo. bitlen_decreases. Qed.

Definition Base58 (f : ID) : string :=
  if f =? 0 then string_of [str_at encodeBase58Map 0]
  else string_of (rev (base58_loop f [])).

(** [ParseBase32]: the loop over the input carries the accumulator [id]. *)
Fixpoint parseBase32_loop (b : list byte) (id : Z) : ID * option error :=
  match b with
  | [] => (id, None)
  | c :: rest =>
      if byte_eqb (array_get decodeBase32Map c) xFF
      then (0, Some ErrInvalidBase32)
      else parseBase32_loop rest
             (Int64.add (Int64.mul id 32)
                        (Z_of_byte (array_get decodeBase32Map c)))
  end.

Definition ParseBase32 (b : list byte) : ID * option error :=
  parseBase32_loop b 0.

Fixpoint parseBase58_loop (b : list byte) (id : Z) : ID * option error :=
  match b with
  | [] => (id, None)
  | c :: rest =>
      if byte_eqb (array_get decodeBase58Map c) xFF
      then (0, Some ErrInvalidBase58)
      else parseBase58_loop rest
             (Int64.add (Int64.mul id 58)
                        (Z_of_byte (array_get decodeBase58Map c)))
  end.

Definition ParseBase58 (b : list byte) : ID * option error :=
  parseBase58_loop b 0.


(** ** Base64: the standard library's [encoding/base64.RawURLEncoding] *)

Module base64.

(** The URL-safe alphabet of [RawURLEncoding], used without padding and
    without strict checking of trailing bits; its decode map is built the
    way [initDecodeMap] builds one. *)
Definition encodeURL : string :=
  "ABCDEFGHIJKLMNOPQRSTUVWXYZabcdefghijklmnopqrstuvwxyz0123456789-_".

Definition decodeMap : list byte :=
  Eval vm_compute in initDecodeMap encodeURL.

Definition encode (v : Z) : byte := str_at encodeURL (Z.land v 63).

(** [EncodeToString]: three source bytes give four characters; a remainder
    of one or two bytes gives two or three characters. *)
Fixpoint EncodeToString (src : list byte) : string :=
  match src with
  | [] => EmptyString
  | [b0] =>
      let val := Z.shiftl (Z_of_byte b0) 16 in
      String (encode (Z.shiftr val 18))
        (String (encode (Z.shiftr val 12)) EmptyString)
  | [b0; b1] =>
      let val := Z.lor (Z.shiftl (Z_of_byte b0) 16)
                       (Z.shiftl (Z_of_byte b1) 8) in
      String (encode (Z.shiftr val 18))
        (String (encode (Z.shiftr val 12))
           (String (encode (Z.shiftr val 6)) EmptyString))
  | b0 :: b1 :: b2 :: rest =>
      let val := Z.lor (Z.lor (Z.shiftl (Z_of_byte b0) 16)
                              (Z.shiftl (Z_of_byte b1) 8))
                       (Z_of_byte b2) in
      String (encode (Z.shiftr val 18))
        (String (encode (Z.shiftr val 12))
           (String (encode (Z.shiftr val 6))
              (String (encode val) (EncodeToString rest))))
  end.

(** The bytes of a quantum of [dlen] sextets ([dbuf] holds them, missing
    ones count as 0): the first [dlen - 1] bytes of the 24-bit value. *)
Definition quantum_bytes (dbuf : list Z) (dlen : Z) : list byte :=
  let val := Z.lor (Z.lor (Z.lor (Z.shiftl (nth 0 dbuf 0) 18)
                                 (Z.shiftl (nth 1 dbuf 0) 12))
                          (Z.shiftl (nth 2 dbuf 0) 6))
                   (nth 3 dbuf 0) in
  firstn (Z.to_nat (dlen - 1))
    [byte_of_Z (Z.shiftr val 16); byte_of_Z (Z.shiftr val 8); byte_of_Z val].

(** [Decode] and its [decodeQuantum], as one pass over the input: [si] is
    the index of the next input byte, [j] the number of sextets collected
    for the current quantum in [dbuf], [dst] the bytes decoded so far.
    Line feeds and carriage returns are skipped; any other byte outside the
    alphabet, or a lone trailing character, is a [CorruptInputError]. *)
Fixpoint decode_loop (src : list byte) (si j : Z) (dbuf : list Z)
         (dst : list byte) : list byte * option error :=
  match src with
  | [] =>
      if j =? 0 then (dst, None)
      else if j =? 1 then (dst, Some (CorruptInputError (si - j)))
      else (dst ++ quantum_bytes dbuf j, None)
  | c :: rest =>
      let si := si + 1 in
      let out := array_get decodeMap c in
      if negb (byte_eqb out xFF) then
        if j =? 3
        then decode_loop rest si 0 []
               (dst ++ quantum_bytes (dbuf ++ [Z_of_byte out]) 4)
        else decode_loop rest si (j + 1) (dbuf ++ [Z_of_byte out]) dst
      else if byte_eqb c (byte_of_Z 10) || byte_eqb c (byte_of_Z 13)
      then decode_loop rest si j dbuf dst
      else (dst, Some (CorruptInputError (si - 1)))
  end.

Definition DecodeString (s : string) : list byte * option error :=
  decode_loop (bytes_of s) 0 0 [] [].

End base64.

(** [binary.BigEndian.PutUint64] into a fresh 8-byte slice. *)
Definition PutUint64 (v : Z) : list byte :=
  [byte_of_Z (Z.shiftr v 56); byte_of_Z (Z.shiftr v 48);
   byte_of_Z (Z.shiftr v 40); byte_of_Z (Z.shiftr v 32);
   byte_of_Z (Z.shiftr v 24); byte_of_Z (Z.shiftr v 16);
   byte_of_Z (Z.shiftr v 8); byte_of_Z v].

(** The loop [for ; i < len(data) && data[i] == 0; i++ {}] followed by
    [data[i:]]. *)
Fixpoint trim_leading_zeros (data : list byte) : list byte :=
  match data with
  | [] => []
  | c :: rest => if byte_eqb c zero then trim_leading_zeros rest else data
  end.

Definition Base64 (f : ID) : string :=
  let data := PutUint64 (Uint64.of_int64 f) in
  base64.EncodeToString (trim_leading_zeros data).

Definition Bytes (f : ID) : list byte := PutUint64 (Uint64.of_int64 f).

Definition ParseBase64 (b : list byte) : ID * option error :=
  match base64.DecodeString (string_of b) with
  | (_, Some err) => (0, Some err)
  | (data, None) =>
      let id := fold_left
                  (fun id b => Z.lor (Uint64.wrap (Z.shiftl id 8)) (Z_of_byte b))
                  data 0 in
      (Uint64.to_int64 id, None)
  end.

(** ** Decimal and binary: the standard library's [strconv] *)

Module strconv.

Definition digits : string := "0123456789abcdefghijklmnopqrstuvwxyz".

(** The digit loop of [formatBits]: [a] is filled from its end,
    [for u >= b { q := u / b; a[i] = digits[u-q*b]; u = q }] and then
    [a[i] = digits[u]].  (The library's special cases for base 10 and for
    powers of two write the same digits.) *)
Equations? formatBits_loop (b u : Z) (a : list byte) : list byte
  by wf (bitlen u) lt :=
  formatBits_loop b u a with Z_le_dec 2 b := {
    | left _ with Z_le_dec b u := {
        | left _ := formatBits_loop b (u / b)
                      (str_at digits (u - (u / b) * b) :: a);
        | right _ := str_at digits u :: a };
    | right _ := a }.
Proof. bitlen_decreases. Qed.

(** [FormatInt(i, base)]: a negative [i] is written as ["-"] followed by
    the digits of [-uint64(i)]. *)
Definition FormatInt (i : Z) (base : Z) : string :=
  let u := Uint64.of_int64 i in
  if i <? 0
  then String "-" (string_of (formatBits_loop base (Uint64.wrap (- u)) []))
  else string_of (formatBits_loop base u []).

Definition lower (c : byte) : byte :=
  byte_of_Z (Z.lor (Z_of_byte c) 32).

(** The value of a digit character: ['0'..'9'], then letters of either
    case from 10 on; [None] for any other byte. *)
Definition digit_val (c : byte) : option Z :=
  let c' := Z_of_byte c in
  let l := Z_of_byte (lower c) in
  if (48 <=? c') && (c' <=? 57) then Some (c' - 48)
  else if (97 <=? l) && (l <=? 122) then Some (l - 97 + 10)
  else None.

(** The loop of [ParseUint(s, base, 64)] for an explicit base between 2
    and 36: [cutoff] is [maxUint64/base + 1]. *)
Fixpoint parseUint_loop (base cutoff : Z) (s : list byte) (n : Z)
  : Z * option error :=
  match s with
  | [] => (n, None)
  | c :: rest =>
      match digit_val c with
      | None => (0, Some ErrSyntax)
      | Some d =>
          if d >=? base then (0, Some ErrSyntax)
          else if n >=? cutoff then (Uint64.max_uint, Some ErrRange)
          else
            let n := Uint64.wrap (n * base) in
            let n1 := Uint64.wrap (n + d) in
            if (n1 <? n) || (n1 >? Uint64.max_uint)
            then (Uint64.max_uint, Some ErrRange)
            else parseUint_loop base cutoff rest n1
      end
  end.

Definition ParseUint (s : string) (base : Z) : Z * option error :=
  match s with
  | EmptyString => (0, Some ErrSyntax)
  | _ => parseUint_loop base (Uint64.max_uint / base + 1) (bytes_of s) 0
  end.

(** [ParseInt(s, base, 64)]: an optional sign, then [ParseUint] and the
    range check against [1 << 63]. *)
Definition ParseInt (s : string) (base : Z) : Z * option error :=
  match s with
  | EmptyString => (0, Some ErrSyntax)
  | String c0 s1 =>
      let neg := byte_eqb c0 "-"%char in
      let s' := if byte_eqb c0 "+"%char || neg then s1 else s in
      let cutoff := 2 ^ 63 in
      let (un, err) := ParseUint s' base in
      let check_range :=
        if negb neg && (un >=? cutoff) then (cutoff - 1, Some ErrRange)
        else if neg && (un >? cutoff) then (- cutoff, Some ErrRange)
        else
          let n := Uint64.to_int64 un in
          (if neg then Int64.wrap (- n) else n, None) in
      match err with
      | None | Some ErrRange => check_range
      | Some e => (0, Some e)
      end
  end.

End strconv.

(** [String] and [Base2]. *)
Definition String_ (f : ID) : string := strconv.FormatInt f 10.
Definition Base2 (f : ID) : string := strconv.FormatInt f 2.

Definition MarshalJSON (f : ID) : list byte * option error :=
  (bytes_of (String_ f), None).

(** [UnmarshalJSON] stores the parsed value through its receiver; here it
    takes the current value and returns the new one with the error. *)
Definition UnmarshalJSON (f : ID) (data : list byte) : ID * option error :=
  match strconv.ParseInt (string_of data) 10 with
  | (_, Some err) => (f, Some err)
  | (id, None) => (id, None)
  end.

(** Modelled from the spec: the source defines no parser for the binary
    form [Base2]; this is the standard base-2 parse of a signed 64-bit
    integer, the call [UnmarshalJSON] makes with base 2 in place of 10. *)
Definition ParseBase2 (s : string) : ID * option error :=
  match strconv.ParseInt s 2 with
  | (_, Some err) => (0, Some err)
  | (id, None) => (id, None)
  end.

(** ** The generator *)

Module Config.

Record t : Type := mk {
  Epoch : Z;      (* int64 *)
  NodeBits : Z;   (* uint8 *)
  StepBits : Z;   (* uint8 *)
  Node : Z        (* int64 *)
}.

Definition wf (cfg : t) : Prop :=
  Int64.in_range (Epoch cfg) /\ Uint8.in_range (NodeBits cfg) /\
  Uint8.in_range (StepBits cfg) /\ Int64.in_range (Node cfg).

End Config.

Definition DefaultEpoch : Z := 1731430800000.
Definition DefaultNodeBits : Z := 10.
Definition DefaultStepBits : Z := 12.
Definition MaxNodeBits : Z := 16.
Definition MaxStepBits : Z := 16.

(** The generator.  The mutex is not a field: a call holds it from its first
    to its last access, so calls are atomic and run one after another.  The
    epoch is not a field either: it is read only to sample the clock (see
    [sinceEpochMs]) and by [Time]/[Timestamp]. *)
Record Node : Type := mkNode {
  time : Z;
  node : Z;
  step : Z;
  nodeMax : Z;
  nodeMask : Z;
  stepMask : Z;
  timeShift : Z;   (* uint8 *)
  nodeShift : Z    (* uint8 *)
}.

Inductive result (A : Type) : Type :=
| Ok (a : A)
| Err (e : error).
Arguments Ok {A} a.
Arguments Err {A} e.

(** [NewConfig]: the defaults, the node left at its zero value. *)
Definition NewConfig : Config.t :=
  Config.mk DefaultEpoch DefaultNodeBits DefaultStepBits 0.

(** [NewNodeWithConfig]: the three checks on the bit widths, then the node
    range against [nodeMax := -1 ^ (-1 << cfg.NodeBits)].  That constant
    expression has type [int], taken as 64 bits wide; the widths are at most
    16 where it is evaluated.  A failure returns no generator. *)
Definition NewNodeWithConfig (cfg : Config.t) : result Node :=
  if Config.NodeBits cfg >? MaxNodeBits then Err ErrNodeBits
  else if Config.StepBits cfg >? MaxStepBits then Err ErrStepBits
  else if Uint8.add (Config.NodeBits cfg) (Config.StepBits cfg) >? 22
  then Err ErrBitsSum
  else
    let nodeMax := Z.lxor (-1) (Int64.shl (-1) (Config.NodeBits cfg)) in
    if (Config.Node cfg <? 0) || (Config.Node cfg >? nodeMax)
    then Err (ErrNodeRange nodeMax)
    else Ok {| time := 0;
               node := Config.Node cfg;
               step := 0;
               nodeMax := nodeMax;
               nodeMask := Int64.shl nodeMax (Config.StepBits cfg);
               stepMask := Z.lxor (-1) (Int64.shl (-1) (Config.StepBits cfg));
               timeShift := Uint8.add (Config.NodeBits cfg) (Config.StepBits cfg);
               nodeShift := Config.StepBits cfg |}.

Definition NewNode (node : Z) : result Node :=
  NewNodeWithConfig (Config.mk DefaultEpoch DefaultNodeBits DefaultStepBits node).

(** *** State and clock

    A call runs on the generator and on the readings of
    [time.Since(n.epoch).Nanoseconds() / 1000000] still to come, one per
    sample taken.  A call that samples past the last reading has not
    returned within the observation: it yields [None]. *)
Record World : Type := mkWorld {
  gen : Node;
  clock : list Z
}.

Definition M (A : Type) : Type := World -> option (A * World).

Definition ret {A} (a : A) : M A := fun w => Some (a, w).

Definition bind {A B} (m : M A) (k : A -> M B) : M B :=
  fun w => match m w with
           | Some (a, w') => k a w'
           | None => None
           end.

Declare Scope mkey_scope.
Delimit Scope mkey_scope with mkey.
Notation "x <- m ;; k" := (bind m (fun x => k))
  (at level 61, m at next level, right associativity) : mkey_scope.
Notation "m ;;; k" := (bind m (fun _ => k))
  (at level 61, right associativity) : mkey_scope.
Local Open Scope mkey_scope.

Definition getNode : M Node := fun w => Some (gen w, w).

Definition setStep (v : Z) : M unit :=
  fun w => let n := gen w in
           Some (tt, mkWorld (mkNode (time n) (node n) v (nodeMax n)
                                (nodeMask n) (stepMask n) (timeShift n)
                                (nodeShift n)) (clock w)).

Definition setTime (v : Z) : M unit :=
  fun w => let n := gen w in
           Some (tt, mkWorld (mkNode v (node n) (step n) (nodeMax n)
                                (nodeMask n) (stepMask n) (timeShift n)
                                (nodeShift n)) (clock w)).

Definition sinceEpochMs : M Z :=
  fun w => match clock w with
           | [] => None
           | t :: rest => Some (t, mkWorld (gen w) rest)
           end.

(** The loop [for now <= n.time { now = time.Since(n.epoch)... }]. *)
Fixpoint spin (t now : Z) (clk : list Z) : option (Z * list Z) :=
  if now <=? t then
    match clk with
    | [] => None
    | c :: rest => spin t c rest
    end
  else Some (now, clk).

Definition waitNextMs (now : Z) : M Z :=
  fun w => match spin (time (gen w)) now (clock w) with
           | Some (now', clk) => Some (now', mkWorld (gen w) clk)
           | None => None
           end.

(** The identifier [(now << timeShift) | (node << nodeShift) | step]. *)
Definition pack (n : Node) (now : Z) : ID :=
  Z.lor (Z.lor (Int64.shl now (timeShift n))
               (Int64.shl (node n) (nodeShift n)))
        (step n).

Definition Generate : M ID :=
  now <- sinceEpochMs ;;
  n <- getNode ;;
  now <- (if now =? time n then
            setStep (Z.land (Int64.add (step n) 1) (stepMask n)) ;;;
            n <- getNode ;;
            if step n =? 0 then waitNextMs now else ret now
          else
            setStep 0 ;;; ret now) ;;
  setTime now ;;;
  n <- getNode ;;
  ret (pack n now).

(** The loop [for i := 0; i < count; i++ { ids[i] = ...; n.step++ }]. *)
Fixpoint batch_loop (count : nat) (now : Z) : M (list ID) :=
  match count with
  | O => ret []
  | S k =>
      n <- getNode ;;
      setStep (Int64.add (step n) 1) ;;;
      ids <- batch_loop k now ;;
      ret (pack n now :: ids)
  end.

Definition GenerateBatch (count : Z) : M (list ID * option error) :=
  n <- getNode ;;
  if count <=? 0 then ret ([], Some ErrCountPositive)
  else if count >? stepMask n then ret ([], Some (ErrCountMax (stepMask n)))
  else
    now <- sinceEpochMs ;;
    n <- getNode ;;
    now <- (if now =? time n then
              if Int64.add (step n) count >? stepMask n then
                now <- waitNextMs now ;;
                setStep 0 ;;; ret now
              else ret now
            else
              setStep 0 ;;; ret now) ;;
    setTime now ;;;
    ids <- batch_loop (Z.to_nat count) now ;;
    ret (ids, None).

(** *** Component extraction *)

(** The timestamp offset [int64(f) >> node.timeShift], to which [Time] and
    [Timestamp] add the epoch. *)
Definition TimeOffset (f : ID) (n : Node) : Z := Int64.shr f (timeShift n).

Definition NodeID (f : ID) (n : Node) : Z :=
  Int64.shr (Z.land f (nodeMask n)) (nodeShift n).

Definition Step (f : ID) (n : Node) : Z := Z.land f (stepMask n).

Definition Int64_ (f : ID) : Z := f.

(** *** Sequences of calls on one generator *)

Inductive call : Type :=
| CallGenerate
| CallGenerateBatch (count : Z).

(** The identifiers a call issues, in order. *)
Definition run_call (c : call) : M (list ID) :=
  match c with
  | CallGenerate => id <- Generate ;; ret [id]
  | CallGenerateBatch count => r <- GenerateBatch count ;; ret (fst r)
  end.

Fixpoint run_calls (cs : list call) : M (list ID) :=
  match cs with
  | [] => ret []
  | c :: rest =>
      ids <- run_call c ;;
      ids' <- run_calls rest ;;
      ret (ids ++ ids')
  end.

(** [k] successive calls of [Generate]. *)
Fixpoint generate_n (k : nat) : M (list ID) :=
  match k with
  | O => ret []
  | S k' =>
      id <- Generate ;;
      ids <- generate_n k' ;;
      ret (id :: ids)
  end.


(** ** Notions of the specification

    The predicates and relations in which the properties below are
    stated. *)

(** A byte of an alphabet. *)
Definition in_alphabet (alphabet : string) (c : byte) : Prop :=
  In c (bytes_of alphabet).

(** The digits [formatBits_loop] writes for a positive number, read from the
    least significant one. *)
Definition format_lsd (b u : Z) : list byte :=
  if 0 <? u then rev (strconv.formatBits_loop b u []) else [].

(** The bit layout of a generator built for [nb] node bits and [sb] step
    bits. *)
Definition layout (n : Node) (nb sb : Z) : Prop :=
  0 <= nb <= 16 /\ 0 <= sb <= 16 /\ nb + sb <= 22 /\
  nodeMax n = 2 ^ nb - 1 /\
  nodeMask n = Z.shiftl (nodeMax n) sb /\
  stepMask n = 2 ^ sb - 1 /\
  timeShift n = nb + sb /\
  nodeShift n = sb /\
  0 <= node n <= nodeMax n.

(** A generator in a state that calls can leave it in. *)
Definition node_ok (n : Node) : Prop :=
  (exists nb sb, layout n nb sb) /\ 0 <= step n <= stepMask n.

(** Two states of one generator: the fields fixed at construction agree. *)
Definition same_generator (n n' : Node) : Prop :=
  node n' = node n /\ nodeMax n' = nodeMax n /\ nodeMask n' = nodeMask n /\
  stepMask n' = stepMask n /\ timeShift n' = timeShift n /\
  nodeShift n' = nodeShift n.

(** The generator with [lastTime] and [lastStep] replaced. *)
Definition issued (n : Node) (t s : Z) : Node :=
  mkNode t (node n) s (nodeMax n) (nodeMask n) (stepMask n) (timeShift n)
         (nodeShift n).

(** The transition of [Generate] in the words of its specification: on the
    generator [n] and the clock readings [clk] it returns [id] and leaves the
    generator [n'] and the readings [clk']. *)
Inductive generate_spec (n : Node) :
  list Z -> ID -> Node -> list Z -> Prop :=
| spec_same_ms : forall now rest s,
    now = time n ->
    s = Z.land (step n + 1) (stepMask n) ->
    s <> 0 ->
    generate_spec n (now :: rest)
      (Z.lor (Z.lor (Int64.shl now (timeShift n))
                    (Int64.shl (node n) (nodeShift n))) s)
      (issued n now s) rest
| spec_exhausted : forall now skipped now' rest,
    now = time n ->
    Z.land (step n + 1) (stepMask n) = 0 ->
    Forall (fun t => t <= time n) skipped ->
    time n < now' ->
    generate_spec n (now :: skipped ++ now' :: rest)
      (Z.lor (Z.lor (Int64.shl now' (timeShift n))
                    (Int64.shl (node n) (nodeShift n))) 0)
      (issued n now' 0) rest
| spec_new_ms : forall now rest,
    now <> time n ->
    generate_spec n (now :: rest)
      (Z.lor (Z.lor (Int64.shl now (timeShift n))
                    (Int64.shl (node n) (nodeShift n))) 0)
      (issued n now 0) rest.

(** Where a batch starts: the reading it is stamped with, its first step
    and the readings left, or [None] while the clock has not advanced. *)
Definition batch_start (n : Node) (count : Z) (clk : list Z)
  : option (Z * Z * list Z) :=
  match clk with
  | [] => None
  | now :: rest =>
      if now =? time n then
        if Int64.add (step n) count >? stepMask n then
          match spin (time n) now rest with
          | Some (now', clk') => Some (now', 0, clk')
          | None => None
          end
        else Some (now, step n, rest)
      else Some (now, 0, rest)
  end.

(** An identifier as an unsigned 64-bit magnitude. *)
Definition unsigned (id : ID) : Z := Uint64.of_int64 id.

(** The readings of a clock that never steps back and stays within the
    timestamp field of the unsigned identifier. *)
Definition clock_ok (n : Node) (clk : list Z) : Prop :=
  StronglySorted Z.le clk /\
  Forall (fun t => 0 <= t < 2 ^ (64 - timeShift n)) clk.

(** The magnitude of the identifier stamped [lastTime], [lastStep]. *)
Definition last_key (n : Node) : Z :=
  time n * 2 ^ timeShift n + node n * 2 ^ nodeShift n + step n.

(** The generator of the specification's scenario: epoch 1700000000000,
    10 node bits, 12 step bits, node 5. *)
Definition scenario_config : Config.t := Config.mk 1700000000000 10 12 5.

Definition scenario_node : Node := mkNode 0 5 0 1023 4190208 4095 22 12.

(** The number that a list of digits denotes in a radix, most significant
    digit first. *)
Definition positional_value (radix : Z) (ds : list Z) : Z :=
  fold_left (fun a d => a * radix + d) ds 0.

(** The digit a byte stands for in each table. *)
Definition digit32 (c : byte) : Z := Z_of_byte (array_get decodeBase32Map c).
Definition digit58 (c : byte) : Z := Z_of_byte (array_get decodeBase58Map c).

(** A sequence of [GenerateBatch] calls. *)
Definition batches (counts : list Z) : list call :=
  map CallGenerateBatch counts.

(** A generator together with a clock that has not gone back behind its
    [lastTime], does not step back and stays within the timestamp field. *)
Definition steady (w : World) : Prop :=
  node_ok (gen w) /\ clock_ok (gen w) (clock w) /\
  Forall (fun t => time (gen w) <= t) (clock w).

(** * Verification *)

(** ** Machine integers and bytes *)

Lemma wrap_in_range (z : Z) : Int64.in_range (Int64.wrap z).
Proof.
  unfold Int64.in_range, Int64.wrap, Int64.min_int, Int64.max_int.
  pose proof (Z.mod_pos_bound (z + 2 ^ 63) (2 ^ 64) ltac:(lia)). lia.
Qed.

Lemma wrap_small (z : Z) : Int64.in_range z -> Int64.wrap z = z.
Proof.
  unfold Int64.in_range, Int64.wrap, Int64.min_int, Int64.max_int. intros H.
  rewrite Z.mod_small by lia. lia.
Qed.

Lemma Z_of_byte_range (c : byte) : 0 <= Z_of_byte c < 256.
Proof.
  unfold Z_of_byte. pose proof (N_ascii_bounded c). lia.
Qed.

Lemma Z_of_byte_of_Z (z : Z) : Z_of_byte (byte_of_Z z) = z mod 256.
Proof.
  unfold Z_of_byte, byte_of_Z.
  pose proof (Z.mod_pos_bound z 256 ltac:(lia)).
  rewrite N_ascii_embedding by lia. lia.
Qed.

Lemma byte_of_Z_of_byte (c : byte) : byte_of_Z (Z_of_byte c) = c.
Proof.
  unfold Z_of_byte, byte_of_Z. pose proof (N_ascii_bounded c).
  rewrite Z.mod_small by lia. rewrite N2Z.id. apply ascii_N_embedding.
Qed.

Lemma bytes_of_string_of (b : list byte) : bytes_of (string_of b) = b.
Proof. apply list_ascii_of_string_of_list_ascii. Qed.

(** Every byte is [byte_of_Z] of a number below 256, so a property checked
    on those 256 numbers holds of every byte. *)
Lemma forall_byte (P : byte -> bool) :
  forallb (fun i => P (byte_of_Z (Z.of_nat i))) (seq 0 256) = true ->
  forall c, P c = true.
Proof.
  intros H c. rewrite forallb_forall in H.
  rewrite <- (byte_of_Z_of_byte c).
  pose proof (Z_of_byte_range c).
  specialize (H (Z.to_nat (Z_of_byte c))).
  rewrite Z2Nat.id in H by lia. apply H.
  apply in_seq. lia.
Qed.

Lemma forall_below (k : nat) (P : Z -> bool) :
  forallb (fun i => P (Z.of_nat i)) (seq 0 k) = true ->
  forall d, 0 <= d < Z.of_nat k -> P d = true.
Proof.
  intros H d Hd. rewrite forallb_forall in H.
  specialize (H (Z.to_nat d)). rewrite Z2Nat.id in H by lia.
  apply H. apply in_seq. lia.
Qed.

(** ** The encoding loops *)

Lemma base32_loop_eq (f : Z) (b : list byte) :
  base32_loop f b =
  if 0 <? f
  then base32_loop (Int64.quo f 32)
         (b ++ [str_at encodeBase32Map (Int64.rem f 32)])
  else b.
Proof.
  rewrite base32_loop_equation_1.
  destruct (Z_lt_dec 0 f) as [H | H].
  - rewrite base32_loop_clause_1_equation_1.
    apply Z.ltb_lt in H. rewrite H. reflexivity.
  - rewrite base32_loop_clause_1_equation_2.
    apply Z.ltb_nlt in H. rewrite H. reflexivity.
Qed.

Lemma base58_loop_eq (f : Z) (b : list byte) :
  base58_loop f b =
  if 0 <? f
  then base58_loop (Int64.quo f 58)
         (b ++ [str_at encodeBase58Map (Int64.rem f 58)])
  else b.
Proof.
  rewrite base58_loop_equation_1.
  destruct (Z_lt_dec 0 f) as [H | H].
  - rewrite base58_loop_clause_1_equation_1.
    apply Z.ltb_lt in H. rewrite H. reflexivity.
  - rewrite base58_loop_clause_1_equation_2.
    apply Z.ltb_nlt in H. rewrite H. reflexivity.
Qed.

Lemma formatBits_loop_eq (b u : Z) (a : list byte) :
  2 <= b ->
  strconv.formatBits_loop b u a =
  if b <=? u
  then strconv.formatBits_loop b (u / b)
         (str_at strconv.digits (u - (u / b) * b) :: a)
  else str_at strconv.digits u :: a.
Proof.
  intros Hb.
  rewrite strconv.formatBits_loop_equation_1.
  destruct (Z_le_dec 2 b) as [H2 | H2]; [| lia].
  rewrite strconv.formatBits_loop_clause_1_equation_1.
  destruct (Z_le_dec b u) as [H | H].
  - rewrite strconv.formatBits_loop_clause_1_clause_1_equation_1.
    apply Z.leb_le in H. rewrite H. reflexivity.
  - rewrite strconv.formatBits_loop_clause_1_clause_1_equation_2.
    apply Z.leb_nle in H. rewrite H. reflexivity.
Qed.

(** Induction along the encoding loops: from the quotients to the number. *)
Lemma bitlen_quot (f r : Z) :
  0 < f -> 2 <= r -> (bitlen (Z.quot f r) < bitlen f)%nat.
Proof. intros Hf Hr. bitlen_decreases. Qed.

Lemma bitlen_ind (P : Z -> Prop) :
  (forall f, (forall g, (bitlen g < bitlen f)%nat -> P g) -> P f) ->
  forall f, P f.
Proof.
  intros H f.
  induction f as [f IH] using (well_founded_induction
                                 (Wf_nat.well_founded_ltof Z bitlen)).
  apply H. intros g Hg. apply IH. exact Hg.
Qed.

(** The accumulator of an encoding loop is only ever extended. *)
Lemma base32_loop_app (f : Z) (b : list byte) :
  base32_loop f b = b ++ base32_loop f [].
Proof.
  revert b. induction f as [f IH] using bitlen_ind. intros b.
  rewrite (base32_loop_eq f b), (base32_loop_eq f []).
  destruct (0 <? f) eqn:Hf; [| now rewrite app_nil_r].
  apply Z.ltb_lt in Hf.
  assert (Hlt : (bitlen (Int64.quo f 32) < bitlen f)%nat)
    by (apply bitlen_quot; lia).
  rewrite (IH _ Hlt (b ++ _)), (IH _ Hlt ([] ++ _)).
  simpl. now rewrite <- app_assoc.
Qed.

Lemma base58_loop_app (f : Z) (b : list byte) :
  base58_loop f b = b ++ base58_loop f [].
Proof.
  revert b. induction f as [f IH] using bitlen_ind. intros b.
  rewrite (base58_loop_eq f b), (base58_loop_eq f []).
  destruct (0 <? f) eqn:Hf; [| now rewrite app_nil_r].
  apply Z.ltb_lt in Hf.
  assert (Hlt : (bitlen (Int64.quo f 58) < bitlen f)%nat)
    by (apply bitlen_quot; lia).
  rewrite (IH _ Hlt (b ++ _)), (IH _ Hlt ([] ++ _)).
  simpl. now rewrite <- app_assoc.
Qed.

Lemma formatBits_loop_app (b u : Z) (a : list byte) :
  2 <= b ->
  strconv.formatBits_loop b u a = strconv.formatBits_loop b u [] ++ a.
Proof.
  intros Hb. revert a. induction u as [u IH] using bitlen_ind. intros a.
  rewrite (formatBits_loop_eq b u a), (formatBits_loop_eq b u []) by assumption.
  destruct (b <=? u) eqn:Hu; [| reflexivity].
  apply Z.leb_le in Hu.
  assert (Hlt : (bitlen (u / b) < bitlen u)%nat).
  { rewrite <- Z.quot_div_nonneg by lia. apply bitlen_quot; lia. }
  rewrite (IH (u / b) Hlt (_ :: a)), (IH (u / b) Hlt [_]).
  rewrite <- app_assoc. reflexivity.
Qed.

(** ** Positional notation

    What the three encoders and their parsers share: [loop] lists the digits
    of a number from the least significant one, [parse] accumulates digits
    from the most significant one as long as the value stays within
    [bound]. *)
Section Positional.

Variable radix : Z.
Variable bound : Z.
Variable R : Type.
Variable enc : Z -> byte.
Variable loop : Z -> list byte.
Variable parse : list byte -> Z -> R.

Hypothesis radix_ge_2 : 2 <= radix.

Hypothesis loop_eq : forall f,
    loop f = if 0 <? f then enc (f mod radix) :: loop (f / radix) else [].

Hypothesis parse_digit : forall d n rest,
    0 <= d < radix -> 0 <= n -> n * radix + d <= bound ->
    parse (enc d :: rest) n = parse rest (n * radix + d).

Lemma positional_roundtrip (x : Z) :
  0 <= x <= bound ->
  forall rest, parse (rev (loop x) ++ rest) 0 = parse rest x.
Proof.
  intros Hx. destruct Hx as [Hx0 Hxb]. generalize Hx0. revert Hxb.
  pattern x. apply Z_lt_induction; [| exact Hx0].
  clear x Hx0. intros x IH Hxb Hx0 rest.
  rewrite loop_eq. destruct (0 <? x) eqn:Hpos.
  - apply Z.ltb_lt in Hpos.
    pose proof (Z.mod_pos_bound x radix ltac:(lia)) as Hm.
    pose proof (Z.div_mod x radix ltac:(lia)) as Hdm.
    assert (Hq : 0 <= x / radix) by (apply Z.div_pos; lia).
    assert (Hqx : x / radix < x) by (apply Z.div_lt; lia).
    simpl rev. rewrite <- app_assoc. simpl app.
    rewrite IH by lia.
    rewrite parse_digit by nia.
    f_equal. lia.
  - apply Z.ltb_ge in Hpos. assert (x = 0) by lia.
    subst x. reflexivity.
Qed.

Lemma loop_nonempty (x : Z) : 0 < x -> loop x <> [].
Proof.
  intros Hx. rewrite loop_eq. apply Z.ltb_lt in Hx. rewrite Hx. discriminate.
Qed.

End Positional.

(** ** The alphabets and their decode tables *)

Lemma in_alphabet_existsb (alphabet : string) (c : byte) :
  existsb (byte_eqb c) (bytes_of alphabet) = true <-> in_alphabet alphabet c.
Proof.
  unfold in_alphabet. rewrite existsb_exists. split.
  - intros [y [Hy He]]. apply Ascii.eqb_eq in He. now subst y.
  - intros H. exists c. split; [assumption | apply Ascii.eqb_refl].
Qed.

(** An entry of a decode table is 0xFF exactly for the bytes outside the
    alphabet it was built from. *)
Lemma decode_table_xFF (alphabet : string) (table : list byte) :
  forallb (fun i =>
             let c := byte_of_Z (Z.of_nat i) in
             Bool.eqb (byte_eqb (array_get table c) xFF)
                      (negb (existsb (byte_eqb c) (bytes_of alphabet))))
          (seq 0 256) = true ->
  forall c, array_get table c = xFF <-> ~ in_alphabet alphabet c.
Proof.
  intros H c.
  pose proof (forall_byte
                (fun c => Bool.eqb (byte_eqb (array_get table c) xFF)
                            (negb (existsb (byte_eqb c) (bytes_of alphabet))))
                H c) as Hc.
  cbv beta zeta in Hc.
  apply Bool.eqb_prop in Hc.
  rewrite <- in_alphabet_existsb.
  unfold byte_eqb in Hc at 1. split.
  - intros E. rewrite E, Ascii.eqb_refl in Hc.
    destruct (existsb _ _); [discriminate | congruence].
  - intros E. apply Ascii.eqb_eq.
    rewrite Hc. destruct (existsb _ _); [congruence | reflexivity].
Qed.

Lemma decodeBase32Map_xFF (c : byte) :
  array_get decodeBase32Map c = xFF <-> ~ in_alphabet encodeBase32Map c.
Proof. apply decode_table_xFF. vm_compute. reflexivity. Qed.

Lemma decodeBase58Map_xFF (c : byte) :
  array_get decodeBase58Map c = xFF <-> ~ in_alphabet encodeBase58Map c.
Proof. apply decode_table_xFF. vm_compute. reflexivity. Qed.

Lemma base64_decodeMap_xFF (c : byte) :
  array_get base64.decodeMap c = xFF <-> ~ in_alphabet base64.encodeURL c.
Proof. apply decode_table_xFF. vm_compute. reflexivity. Qed.

(** The tables the code holds are the ones [init] builds. *)
Lemma decode_tables_init :
  decodeBase32Map = initDecodeMap encodeBase32Map /\
  decodeBase58Map = initDecodeMap encodeBase58Map /\
  decodeBase64Map = initDecodeMap encodeBase64Map /\
  base64.decodeMap = decodeBase64Map.
Proof. repeat split; vm_compute; reflexivity. Qed.

(** A table inverts its alphabet: the entry of the [d]-th character is [d]. *)
Lemma decode_table_digit (k : nat) (alphabet : string) (table : list byte) :
  forallb (fun i =>
             let c := array_get table (str_at alphabet (Z.of_nat i)) in
             negb (byte_eqb c xFF) && (Z_of_byte c =? Z.of_nat i))
          (seq 0 k) = true ->
  forall d, 0 <= d < Z.of_nat k ->
       byte_eqb (array_get table (str_at alphabet d)) xFF = false /\
       Z_of_byte (array_get table (str_at alphabet d)) = d.
Proof.
  intros H d Hd.
  pose proof (forall_below k
                (fun d => let c := array_get table (str_at alphabet d) in
                          negb (byte_eqb c xFF) && (Z_of_byte c =? d)) H d Hd)
    as Hc.
  cbv beta zeta in Hc. apply andb_true_iff in Hc. destruct Hc as [H1 H2].
  apply negb_true_iff in H1. apply Z.eqb_eq in H2. now split.
Qed.

Lemma decodeBase32Map_digit (d : Z) :
  0 <= d < 32 ->
  byte_eqb (array_get decodeBase32Map (str_at encodeBase32Map d)) xFF = false /\
  Z_of_byte (array_get decodeBase32Map (str_at encodeBase32Map d)) = d.
Proof. apply (decode_table_digit 32). vm_compute. reflexivity. Qed.

Lemma decodeBase58Map_digit (d : Z) :
  0 <= d < 58 ->
  byte_eqb (array_get decodeBase58Map (str_at encodeBase58Map d)) xFF = false /\
  Z_of_byte (array_get decodeBase58Map (str_at encodeBase58Map d)) = d.
Proof. apply (decode_table_digit 58). vm_compute. reflexivity. Qed.

Lemma base64_decodeMap_digit (d : Z) :
  0 <= d < 64 ->
  byte_eqb (array_get base64.decodeMap (str_at base64.encodeURL d)) xFF = false /\
  Z_of_byte (array_get base64.decodeMap (str_at base64.encodeURL d)) = d.
Proof. apply (decode_table_digit 64). vm_compute. reflexivity. Qed.

(** ** Base32 and Base58: parsing what was encoded *)

Lemma base32_lsd (f : Z) :
  base32_loop f [] =
  if 0 <? f
  then str_at encodeBase32Map (f mod 32) :: base32_loop (f / 32) []
  else [].
Proof.
  rewrite base32_loop_eq at 1. destruct (0 <? f) eqn:Hf; [| reflexivity].
  apply Z.ltb_lt in Hf. rewrite base32_loop_app. simpl.
  unfold Int64.quo, Int64.rem.
  rewrite Z.quot_div_nonneg, Z.rem_mod_nonneg by lia. reflexivity.
Qed.

Lemma base58_lsd (f : Z) :
  base58_loop f [] =
  if 0 <? f
  then str_at encodeBase58Map (f mod 58) :: base58_loop (f / 58) []
  else [].
Proof.
  rewrite base58_loop_eq at 1. destruct (0 <? f) eqn:Hf; [| reflexivity].
  apply Z.ltb_lt in Hf. rewrite base58_loop_app. simpl.
  unfold Int64.quo, Int64.rem.
  rewrite Z.quot_div_nonneg, Z.rem_mod_nonneg by lia. reflexivity.
Qed.

Lemma parseBase32_digit (d n : Z) (rest : list byte) :
  0 <= d < 32 -> 0 <= n -> n * 32 + d <= Int64.max_int ->
  parseBase32_loop (str_at encodeBase32Map d :: rest) n =
  parseBase32_loop rest (n * 32 + d).
Proof.
  intros Hd Hn Hb. simpl.
  destruct (decodeBase32Map_digit d Hd) as [H1 H2]. rewrite H1, H2.
  unfold Int64.add, Int64.mul. unfold Int64.max_int in Hb.
  rewrite (wrap_small (n * 32)) by (unfold Int64.in_range, Int64.min_int, Int64.max_int; lia).
  rewrite wrap_small by (unfold Int64.in_range, Int64.min_int, Int64.max_int; lia).
  reflexivity.
Qed.

Lemma parseBase58_digit (d n : Z) (rest : list byte) :
  0 <= d < 58 -> 0 <= n -> n * 58 + d <= Int64.max_int ->
  parseBase58_loop (str_at encodeBase58Map d :: rest) n =
  parseBase58_loop rest (n * 58 + d).
Proof.
  intros Hd Hn Hb. simpl.
  destruct (decodeBase58Map_digit d Hd) as [H1 H2]. rewrite H1, H2.
  unfold Int64.add, Int64.mul. unfold Int64.max_int in Hb.
  rewrite (wrap_small (n * 58)) by (unfold Int64.in_range, Int64.min_int, Int64.max_int; lia).
  rewrite wrap_small by (unfold Int64.in_range, Int64.min_int, Int64.max_int; lia).
  reflexivity.
Qed.

Lemma Base32_roundtrip (x : Z) :
  0 <= x <= Int64.max_int -> ParseBase32 (bytes_of (Base32 x)) = (x, None).
Proof.
  intros Hx. unfold Base32, ParseBase32.
  destruct (x =? 0) eqn:H0.
  - apply Z.eqb_eq in H0. subst x. reflexivity.
  - rewrite bytes_of_string_of.
    rewrite <- (app_nil_r (rev _)).
    rewrite (positional_roundtrip 32 Int64.max_int _
               (str_at encodeBase32Map) (fun f => base32_loop f [])
               parseBase32_loop ltac:(lia) base32_lsd parseBase32_digit x Hx).
    reflexivity.
Qed.

Lemma Base58_roundtrip (x : Z) :
  0 <= x <= Int64.max_int -> ParseBase58 (bytes_of (Base58 x)) = (x, None).
Proof.
  intros Hx. unfold Base58, ParseBase58.
  destruct (x =? 0) eqn:H0.
  - apply Z.eqb_eq in H0. subst x. reflexivity.
  - rewrite bytes_of_string_of.
    rewrite <- (app_nil_r (rev _)).
    rewrite (positional_roundtrip 58 Int64.max_int _
               (str_at encodeBase58Map) (fun f => base58_loop f [])
               parseBase58_loop ltac:(lia) base58_lsd parseBase58_digit x Hx).
    reflexivity.
Qed.

(** ** Decimal and binary: parsing what was formatted *)

Lemma format_lsd_eq (b : Z) :
  2 <= b ->
  forall u, format_lsd b u =
            if 0 <? u
            then str_at strconv.digits (u mod b) :: format_lsd b (u / b)
            else [].
Proof.
  intros Hb u. unfold format_lsd at 1.
  destruct (0 <? u) eqn:Hu; [| reflexivity].
  apply Z.ltb_lt in Hu.
  rewrite formatBits_loop_eq by assumption.
  destruct (b <=? u) eqn:Hbu.
  - apply Z.leb_le in Hbu.
    rewrite formatBits_loop_app by assumption.
    rewrite rev_app_distr. simpl.
    assert (Hq : 0 < u / b) by (apply Z.div_str_pos; lia).
    unfold format_lsd. apply Z.ltb_lt in Hq. rewrite Hq.
    f_equal. f_equal. rewrite Z.mod_eq by lia. lia.
  - apply Z.leb_gt in Hbu. simpl.
    rewrite Z.mod_small by lia.
    unfold format_lsd. rewrite Z.div_small by lia. reflexivity.
Qed.

Lemma formatBits_zero (b : Z) :
  2 <= b -> strconv.formatBits_loop b 0 [] = [str_at strconv.digits 0].
Proof.
  intros Hb. rewrite formatBits_loop_eq by assumption.
  assert (H : (b <=? 0) = false) by (apply Z.leb_gt; lia).
  now rewrite H.
Qed.

Lemma formatBits_pos (b u : Z) :
  2 <= b -> 0 < u -> strconv.formatBits_loop b u [] = rev (format_lsd b u).
Proof.
  intros Hb Hu. unfold format_lsd. apply Z.ltb_lt in Hu. rewrite Hu.
  now rewrite rev_involutive.
Qed.

(** Every digit character has its own value and is no sign. *)
Lemma strconv_digit (d : Z) :
  0 <= d < 36 ->
  strconv.digit_val (str_at strconv.digits d) = Some d /\
  byte_eqb (str_at strconv.digits d) "+"%char = false /\
  byte_eqb (str_at strconv.digits d) "-"%char = false.
Proof.
  intros Hd.
  pose proof (forall_below 36
    (fun d => match strconv.digit_val (str_at strconv.digits d) with
              | Some v => v =? d
              | None => false
              end
              && negb (byte_eqb (str_at strconv.digits d) "+"%char)
              && negb (byte_eqb (str_at strconv.digits d) "-"%char))
    ltac:(vm_compute; reflexivity) d Hd) as H.
  cbv beta in H.
  apply andb_true_iff in H. destruct H as [H H3].
  apply andb_true_iff in H. destruct H as [H1 H2].
  apply negb_true_iff in H2, H3.
  destruct (strconv.digit_val _) as [v |]; [| discriminate].
  apply Z.eqb_eq in H1. subst v. auto.
Qed.

Lemma parseUint_digit (base : Z) :
  2 <= base <= 36 ->
  forall d n rest,
    0 <= d < base -> 0 <= n -> n * base + d <= Uint64.max_uint ->
    strconv.parseUint_loop base (Uint64.max_uint / base + 1)
      (str_at strconv.digits d :: rest) n =
    strconv.parseUint_loop base (Uint64.max_uint / base + 1) rest
      (n * base + d).
Proof.
  intros Hbase d n rest Hd Hn Hb. simpl.
  destruct (strconv_digit d ltac:(lia)) as [Hv _]. rewrite Hv.
  assert (H1 : (d >=? base) = false) by lia. rewrite H1.
  assert (Hcut : n < Uint64.max_uint / base + 1).
  { assert (n <= Uint64.max_uint / base); [| lia].
    apply Z.div_le_lower_bound; nia. }
  assert (H2 : (n >=? Uint64.max_uint / base + 1) = false) by lia.
  rewrite H2.
  unfold Uint64.wrap. unfold Uint64.max_uint in *.
  rewrite (Z.mod_small (n * base)) by nia.
  rewrite (Z.mod_small (n * base + d)) by nia.
  assert (H3 : (n * base + d <? n * base) = false) by lia.
  assert (H4 : (n * base + d >? 2 ^ 64 - 1) = false) by lia.
  rewrite H3, H4. reflexivity.
Qed.

Lemma ParseUint_formatBits (base u : Z) :
  2 <= base <= 36 -> 0 <= u <= Uint64.max_uint ->
  exists c s,
    string_of (strconv.formatBits_loop base u []) = String c s /\
    byte_eqb c "+"%char = false /\ byte_eqb c "-"%char = false /\
    strconv.ParseUint (String c s) base = (u, None).
Proof.
  intros Hbase Hu.
  assert (Hparse :
            strconv.parseUint_loop base (Uint64.max_uint / base + 1)
              (strconv.formatBits_loop base u []) 0 = (u, None)).
  { destruct (Z.eq_dec u 0) as [-> | Hnz].
    - rewrite formatBits_zero by lia.
      rewrite parseUint_digit by (unfold Uint64.max_uint; lia). reflexivity.
    - rewrite formatBits_pos by lia.
      rewrite <- (app_nil_r (rev _)).
      rewrite (positional_roundtrip base Uint64.max_uint _
                 (str_at strconv.digits) (format_lsd base)
                 (strconv.parseUint_loop base (Uint64.max_uint / base + 1))
                 ltac:(lia) (format_lsd_eq base ltac:(lia))
                 (parseUint_digit base Hbase) u Hu).
      reflexivity. }
  assert (Hhead : exists d rest, 0 <= d < base /\
                    strconv.formatBits_loop base u [] =
                    str_at strconv.digits d :: rest).
  { destruct (Z.eq_dec u 0) as [-> | Hnz].
    - exists 0, []. split; [lia | apply formatBits_zero; lia].
    - clear Hparse. assert (Hpos : 0 < u) by lia. clear Hnz Hu.
      revert Hpos. induction u as [u IH] using bitlen_ind. intros Hpos.
      rewrite formatBits_loop_eq by lia.
      destruct (base <=? u) eqn:Hbu.
      + apply Z.leb_le in Hbu.
        assert (Hq : 0 < u / base) by (apply Z.div_str_pos; lia).
        assert (Hlt : (bitlen (u / base) < bitlen u)%nat).
        { rewrite <- Z.quot_div_nonneg by lia. apply bitlen_quot; lia. }
        destruct (IH _ Hlt Hq) as [d [rest [Hd E]]].
        rewrite formatBits_loop_app by lia. rewrite E.
        exists d. eexists. split; [exact Hd | reflexivity].
      + apply Z.leb_gt in Hbu. exists u, []. split; [lia | reflexivity]. }
  destruct Hhead as [d [rest [Hd E]]].
  destruct (strconv_digit d ltac:(lia)) as [_ [Hplus Hminus]].
  exists (str_at strconv.digits d), (string_of rest).
  rewrite E in *. simpl string_of. repeat split; try assumption.
  unfold strconv.ParseUint.
  change (String (str_at strconv.digits d) (string_of rest))
    with (string_of (str_at strconv.digits d :: rest)).
  rewrite bytes_of_string_of. exact Hparse.
Qed.

Lemma ParseInt_FormatInt (base x : Z) :
  2 <= base <= 36 -> Int64.in_range x ->
  strconv.ParseInt (strconv.FormatInt x base) base = (x, None).
Proof.
  intros Hbase Hx.
  unfold Int64.in_range, Int64.min_int, Int64.max_int in Hx.
  unfold strconv.FormatInt, Uint64.of_int64, Uint64.wrap.
  destruct (x <? 0) eqn:Hneg.
  - apply Z.ltb_lt in Hneg.
    assert (Hu : (- (x mod 2 ^ 64)) mod 2 ^ 64 = - x).
    { replace (x mod 2 ^ 64) with (x + 2 ^ 64).
      - replace (- (x + 2 ^ 64)) with (- x + (-1) * 2 ^ 64) by lia.
        rewrite Z.mod_add by lia. apply Z.mod_small. lia.
      - symmetry. rewrite <- (Z.mod_add x 1 (2 ^ 64)) by lia.
        apply Z.mod_small. lia. }
    rewrite Hu.
    destruct (ParseUint_formatBits base (- x) Hbase
                ltac:(unfold Uint64.max_uint; lia))
      as [c [s [E [_ [_ Hp]]]]].
    rewrite E. unfold strconv.ParseInt.
    change (byte_eqb "-"%char "-"%char) with true.
    rewrite orb_true_r. rewrite Hp. cbv iota beta zeta.
    cbn [negb andb].
    assert (H1 : (- x >? 2 ^ 63) = false) by lia. rewrite H1.
    f_equal. unfold Uint64.to_int64.
    destruct (Z.eq_dec x (- 2 ^ 63)) as [-> | Hne].
    + reflexivity.
    + rewrite (wrap_small (- x))
        by (unfold Int64.in_range, Int64.min_int, Int64.max_int; lia).
      rewrite Z.opp_involutive. apply wrap_small.
      unfold Int64.in_range, Int64.min_int, Int64.max_int; lia.
  - apply Z.ltb_ge in Hneg.
    rewrite Z.mod_small by lia.
    destruct (ParseUint_formatBits base x Hbase
                ltac:(unfold Uint64.max_uint; lia))
      as [c [s [E [Hplus [Hminus Hp]]]]].
    rewrite E. unfold strconv.ParseInt.
    rewrite Hplus, Hminus. cbn [orb]. rewrite Hp.
    cbv iota beta zeta. cbn [negb andb].
    assert (H1 : (x >=? 2 ^ 63) = false) by lia. rewrite H1.
    f_equal. unfold Uint64.to_int64. apply wrap_small.
    unfold Int64.in_range, Int64.min_int, Int64.max_int; lia.
Qed.

(** ** Bit fields as sums *)

(** Or-ing into the zero low bits of a number adds. *)
Lemma lor_add (k a lo : Z) :
  0 <= k -> a mod 2 ^ k = 0 -> 0 <= lo < 2 ^ k -> Z.lor a lo = a + lo.
Proof.
  intros Hk Ha Hlo.
  assert (Hland : Z.land a lo = 0).
  { apply Z.bits_inj'. intros n Hn. rewrite Z.land_spec, Z.bits_0.
    destruct (Z_lt_dec n k) as [Hlt | Hge].
    - rewrite <- (Z.mod_pow2_bits_low a k n) by lia. rewrite Ha, Z.bits_0.
      reflexivity.
    - rewrite <- (Z.mod_small lo (2 ^ k)) by lia.
      rewrite Z.mod_pow2_bits_high by lia. apply andb_false_r. }
  rewrite <- Z.lxor_lor by assumption.
  symmetry. apply Z.add_nocarry_lxor. assumption.
Qed.

Lemma land63 (v : Z) : Z.land v 63 = v mod 64.
Proof. change 63 with (Z.ones 6). rewrite Z.land_ones by lia. reflexivity. Qed.

Lemma byte_of_Z_mod (z : Z) : byte_of_Z (z mod 256) = byte_of_Z z.
Proof. unfold byte_of_Z. now rewrite Z.mod_mod by lia. Qed.

Lemma byte_of_Z_eq (z : Z) (c : byte) : z mod 256 = Z_of_byte c -> byte_of_Z z = c.
Proof.
  intros H. rewrite <- byte_of_Z_mod, H. apply byte_of_Z_of_byte.
Qed.

(** Shifts and masks by constants are products, quotients and remainders;
    [lor_add] turns the bytes or-ed into disjoint fields into sums. *)
Ltac shifts_to_arith :=
  rewrite ?Z.shiftl_mul_pow2, ?Z.shiftr_div_pow2, ?land63 by lia.

Ltac div_mod_lia := Z.div_mod_to_equations; lia.

(** ** Base64: decoding what was encoded *)

Lemma quantum_bytes_3 (b0 b1 b2 : byte) :
  let val := Z.lor (Z.lor (Z.shiftl (Z_of_byte b0) 16)
                          (Z.shiftl (Z_of_byte b1) 8))
                   (Z_of_byte b2) in
  base64.quantum_bytes
    [Z.land (Z.shiftr val 18) 63; Z.land (Z.shiftr val 12) 63;
     Z.land (Z.shiftr val 6) 63; Z.land val 63] 4 = [b0; b1; b2].
Proof.
  pose proof (Z_of_byte_range b0). pose proof (Z_of_byte_range b1).
  pose proof (Z_of_byte_range b2).
  intros val.
  assert (Hval : val = Z_of_byte b0 * 65536 + Z_of_byte b1 * 256 + Z_of_byte b2).
  { unfold val. shifts_to_arith.
    rewrite (lor_add 16 _ (Z_of_byte b1 * 2 ^ 8)) by div_mod_lia.
    rewrite (lor_add 8) by div_mod_lia. lia. }
  clearbody val. unfold base64.quantum_bytes.
  change (Z.to_nat (4 - 1)) with 3%nat. cbn [nth firstn].
  shifts_to_arith.
  rewrite (lor_add 18 _ (_ * 2 ^ 12)) by div_mod_lia.
  rewrite (lor_add 12 _ (_ * 2 ^ 6)) by div_mod_lia.
  rewrite (lor_add 6) by div_mod_lia.
  repeat f_equal; apply byte_of_Z_eq; div_mod_lia.
Qed.

Lemma quantum_bytes_2 (b0 b1 : byte) :
  let val := Z.lor (Z.shiftl (Z_of_byte b0) 16) (Z.shiftl (Z_of_byte b1) 8) in
  base64.quantum_bytes
    [Z.land (Z.shiftr val 18) 63; Z.land (Z.shiftr val 12) 63;
     Z.land (Z.shiftr val 6) 63] 3 = [b0; b1].
Proof.
  pose proof (Z_of_byte_range b0). pose proof (Z_of_byte_range b1).
  intros val.
  assert (Hval : val = Z_of_byte b0 * 65536 + Z_of_byte b1 * 256).
  { unfold val. shifts_to_arith.
    rewrite (lor_add 16 _ (Z_of_byte b1 * 2 ^ 8)) by div_mod_lia. lia. }
  clearbody val. unfold base64.quantum_bytes.
  change (Z.to_nat (3 - 1)) with 2%nat. cbn [nth firstn].
  rewrite Z.lor_0_r. shifts_to_arith.
  rewrite (lor_add 18 _ (_ * 2 ^ 12)) by div_mod_lia.
  rewrite (lor_add 12 _ (_ * 2 ^ 6)) by div_mod_lia.
  repeat f_equal; apply byte_of_Z_eq; div_mod_lia.
Qed.

Lemma quantum_bytes_1 (b0 : byte) :
  let val := Z.shiftl (Z_of_byte b0) 16 in
  base64.quantum_bytes
    [Z.land (Z.shiftr val 18) 63; Z.land (Z.shiftr val 12) 63] 2 = [b0].
Proof.
  pose proof (Z_of_byte_range b0).
  intros val.
  assert (Hval : val = Z_of_byte b0 * 65536).
  { unfold val. shifts_to_arith. lia. }
  clearbody val. unfold base64.quantum_bytes.
  change (Z.to_nat (2 - 1)) with 1%nat. cbn [nth firstn].
  rewrite Z.lor_0_r. change (Z.shiftl 0 6) with 0. rewrite Z.lor_0_r.
  shifts_to_arith.
  rewrite (lor_add 18 _ (_ * 2 ^ 12)) by div_mod_lia.
  repeat f_equal; apply byte_of_Z_eq; div_mod_lia.
Qed.

Lemma decode_loop_encode (v : Z) (rest : list byte) (si j : Z)
      (dbuf : list Z) (dst : list byte) :
  base64.decode_loop (base64.encode v :: rest) si j dbuf dst =
  if j =? 3
  then base64.decode_loop rest (si + 1) 0 []
         (dst ++ base64.quantum_bytes (dbuf ++ [Z.land v 63]) 4)
  else base64.decode_loop rest (si + 1) (j + 1) (dbuf ++ [Z.land v 63]) dst.
Proof.
  assert (Hr : 0 <= Z.land v 63 < 64)
    by (rewrite land63; apply Z.mod_pos_bound; lia).
  destruct (base64_decodeMap_digit _ Hr) as [H1 H2].
  cbn [base64.decode_loop]. unfold base64.encode. rewrite H1, H2.
  reflexivity.
Qed.

Lemma list_ind3 (A : Type) (P : list A -> Prop) :
  P [] -> (forall a, P [a]) -> (forall a b, P [a; b]) ->
  (forall a b c l, P l -> P (a :: b :: c :: l)) ->
  forall l, P l.
Proof.
  intros H0 H1 H2 H3.
  fix IH 1. intros [| a [| b [| c l]]].
  - exact H0.
  - apply H1.
  - apply H2.
  - apply H3. apply IH.
Qed.

Lemma decode_loop_EncodeToString (src : list byte) :
  forall si dst,
    base64.decode_loop (bytes_of (base64.EncodeToString src)) si 0 [] dst =
    (dst ++ src, None).
Proof.
  induction src as [| b0 | b0 b1 | b0 b1 b2 rest IH] using list_ind3;
    intros si dst.
  - simpl. now rewrite app_nil_r.
  - cbn [base64.EncodeToString bytes_of list_ascii_of_string].
    rewrite !decode_loop_encode. cbn [Z.eqb Z.add Pos.eqb app].
    cbn [base64.decode_loop]. cbn [Z.eqb Pos.eqb Pos.add Pos.succ].
    now rewrite (quantum_bytes_1 b0).
  - cbn [base64.EncodeToString bytes_of list_ascii_of_string].
    rewrite !decode_loop_encode. cbn [Z.eqb Z.add Pos.eqb app].
    cbn [base64.decode_loop]. cbn [Z.eqb Pos.eqb Pos.add Pos.succ].
    now rewrite (quantum_bytes_2 b0 b1).
  - cbn [base64.EncodeToString bytes_of list_ascii_of_string].
    rewrite !decode_loop_encode. cbn [Z.eqb Z.add Pos.eqb app].
    cbn [Z.eqb Pos.eqb Pos.add Pos.succ].
    rewrite (quantum_bytes_3 b0 b1 b2).
    fold (bytes_of (base64.EncodeToString rest)).
    rewrite IH. now rewrite <- app_assoc.
Qed.

Lemma DecodeString_EncodeToString (src : list byte) :
  base64.DecodeString (base64.EncodeToString src) = (src, None).
Proof.
  unfold base64.DecodeString. apply (decode_loop_EncodeToString src 0 []).
Qed.

(** The accumulation [id = (id << 8) | uint64(b)] of [ParseBase64]. *)
Lemma be_step (id c : Z) :
  0 <= id < 2 ^ 56 -> 0 <= c < 256 ->
  Z.lor (Uint64.wrap (Z.shiftl id 8)) c = id * 256 + c.
Proof.
  intros Hid Hc.
  unfold Uint64.wrap. rewrite Z.shiftl_mul_pow2 by lia.
  rewrite Z.mod_small by lia.
  rewrite (lor_add 8) by div_mod_lia. lia.
Qed.

Ltac be_step_innermost :=
  match goal with
  | |- context [Z.lor (Uint64.wrap (Z.shiftl ?id 8)) ?c] =>
      lazymatch id with
      | context [Z.lor] => fail
      | _ => rewrite (be_step id c) by div_mod_lia
      end
  end.

Lemma fold_PutUint64 (u : Z) :
  0 <= u < 2 ^ 64 ->
  fold_left (fun id b => Z.lor (Uint64.wrap (Z.shiftl id 8)) (Z_of_byte b))
            (PutUint64 u) 0 = u.
Proof.
  intros Hu. unfold PutUint64. cbn [fold_left].
  rewrite !Z_of_byte_of_Z. rewrite !Z.shiftr_div_pow2 by lia.
  change (Z.shiftl 0 8) with 0. change (Uint64.wrap 0) with 0.
  rewrite Z.lor_0_l.
  do 7 be_step_innermost.
  div_mod_lia.
Qed.

Lemma fold_trim_leading_zeros (data : list byte) :
  fold_left (fun id b => Z.lor (Uint64.wrap (Z.shiftl id 8)) (Z_of_byte b))
            (trim_leading_zeros data) 0 =
  fold_left (fun id b => Z.lor (Uint64.wrap (Z.shiftl id 8)) (Z_of_byte b))
            data 0.
Proof.
  induction data as [| c rest IH]; [reflexivity |].
  cbn [trim_leading_zeros]. destruct (byte_eqb c zero) eqn:Hc.
  - apply Ascii.eqb_eq in Hc. subst c. rewrite IH. reflexivity.
  - reflexivity.
Qed.

Lemma to_int64_of_int64 (x : Z) :
  Int64.in_range x -> Uint64.to_int64 (Uint64.of_int64 x) = x.
Proof.
  unfold Int64.in_range, Int64.min_int, Int64.max_int.
  unfold Uint64.to_int64, Uint64.of_int64, Uint64.wrap, Int64.wrap.
  intros Hx. div_mod_lia.
Qed.

Lemma Base64_roundtrip (x : Z) :
  Int64.in_range x -> ParseBase64 (bytes_of (Base64 x)) = (x, None).
Proof.
  intros Hx. unfold ParseBase64, Base64.
  unfold string_of, bytes_of at 1. rewrite string_of_list_ascii_of_string.
  rewrite DecodeString_EncodeToString.
  rewrite fold_trim_leading_zeros.
  rewrite fold_PutUint64.
  - now rewrite to_int64_of_int64.
  - unfold Uint64.of_int64, Uint64.wrap. apply Z.mod_pos_bound. lia.
Qed.

(** ** Construction *)

Lemma mask_of_bits (k : Z) :
  0 <= k <= 16 -> Z.lxor (-1) (Int64.shl (-1) k) = 2 ^ k - 1.
Proof.
  intros Hk.
  pose proof (forall_below 17
                (fun k => Z.lxor (-1) (Int64.shl (-1) k) =? 2 ^ k - 1)
                ltac:(vm_compute; reflexivity) k ltac:(lia)) as H.
  now apply Z.eqb_eq in H.
Qed.

Lemma pow2_le (a b : Z) : 0 <= a <= b -> 2 ^ a <= 2 ^ b.
Proof. intros H. apply Z.pow_le_mono_r; lia. Qed.

Lemma shl_small (a k : Z) :
  0 <= k < 64 -> Int64.in_range (a * 2 ^ k) -> Int64.shl a k = a * 2 ^ k.
Proof.
  intros Hk Hr. unfold Int64.shl.
  assert (H : (k <? 64) = true) by lia. rewrite H.
  rewrite Z.shiftl_mul_pow2 by lia. now apply wrap_small.
Qed.

Lemma NewNodeWithConfig_layout (cfg : Config.t) (n : Node) :
  Config.wf cfg -> NewNodeWithConfig cfg = Ok n ->
  layout n (Config.NodeBits cfg) (Config.StepBits cfg) /\
  node n = Config.Node cfg /\ time n = 0 /\ step n = 0.
Proof.
  intros [_ [Hnb [Hsb _]]]. unfold Uint8.in_range in *.
  unfold NewNodeWithConfig, MaxNodeBits, MaxStepBits, Uint8.add, Uint8.wrap.
  destruct (Config.NodeBits cfg >? 16) eqn:H1; [discriminate |].
  destruct (Config.StepBits cfg >? 16) eqn:H2; [discriminate |].
  rewrite Z.mod_small by lia.
  destruct (Config.NodeBits cfg + Config.StepBits cfg >? 22) eqn:H3;
    [discriminate |].
  rewrite !mask_of_bits by lia.
  destruct ((Config.Node cfg <? 0) || (Config.Node cfg >? _)) eqn:H4;
    [discriminate |].
  apply orb_false_iff in H4. destruct H4 as [H4 H5].
  intros E. injection E as <-. cbn.
  assert (Hp : 2 ^ Config.NodeBits cfg <= 2 ^ 16) by (apply pow2_le; lia).
  assert (Hq : 2 ^ Config.StepBits cfg <= 2 ^ 16) by (apply pow2_le; lia).
  assert (0 < 2 ^ Config.NodeBits cfg) by (apply Z.pow_pos_nonneg; lia).
  assert (0 < 2 ^ Config.StepBits cfg) by (apply Z.pow_pos_nonneg; lia).
  change (2 ^ 16) with 65536 in Hp, Hq.
  assert (Hm : 0 <= (2 ^ Config.NodeBits cfg - 1) * 2 ^ Config.StepBits cfg
               <= 65536 * 65536) by (split; [nia | apply Z.mul_le_mono_nonneg; lia]).
  unfold layout. cbn.
  rewrite shl_small, Z.shiftl_mul_pow2 by
      (try lia; unfold Int64.in_range, Int64.min_int, Int64.max_int; lia).
  repeat split; lia.
Qed.

(** ** The packed identifier and its fields *)

(** Three fields of widths [A], [B] and the rest, packed by position. *)
Lemma fields_of_sum (A B q nd st : Z) :
  0 < A -> 0 < B -> 0 <= nd < B -> 0 <= st < A ->
  let id := q * (B * A) + nd * A + st in
  id mod A = st /\ (id / A) mod B = nd /\ id / (B * A) = q.
Proof.
  intros HA HB Hnd Hst id.
  assert (E1 : id = A * (q * B + nd) + st) by (unfold id; ring).
  assert (E2 : id = (B * A) * q + (nd * A + st)) by (unfold id; ring).
  assert (Hlo : 0 <= nd * A + st < B * A) by nia.
  repeat split.
  - symmetry. apply (Z.mod_unique id A (q * B + nd) st); [lia | exact E1].
  - rewrite <- (Z.div_unique id A (q * B + nd) st) by (lia || exact E1).
    symmetry. apply (Z.mod_unique _ B q nd); [lia | ring].
  - symmetry. apply (Z.div_unique id (B * A) q (nd * A + st)); [lia | exact E2].
Qed.

(** A left shift yields a multiple of the power of two, congruent modulo
    2^64 to the exact product and equal to it when that fits. *)
Lemma shl_multiple (a k : Z) :
  0 <= k < 64 ->
  exists q, Int64.shl a k = q * 2 ^ k /\
            (Int64.in_range (a * 2 ^ k) -> q = a) /\
            (q * 2 ^ k) mod 2 ^ 64 = (a * 2 ^ k) mod 2 ^ 64.
Proof.
  intros Hk. unfold Int64.shl.
  assert (H : (k <? 64) = true) by lia. rewrite H.
  rewrite Z.shiftl_mul_pow2 by lia.
  assert (Hpow : 2 ^ 64 = 2 ^ (64 - k) * 2 ^ k).
  { rewrite <- Z.pow_add_r by lia. f_equal. lia. }
  assert (Hk0 : 0 < 2 ^ k) by (apply Z.pow_pos_nonneg; lia).
  set (m := (a * 2 ^ k + 2 ^ 63) / 2 ^ 64).
  assert (Hw : Int64.wrap (a * 2 ^ k) = (a - 2 ^ (64 - k) * m) * 2 ^ k).
  { unfold Int64.wrap. rewrite Z.mod_eq by lia. fold m.
    rewrite Hpow at 1. ring. }
  exists (a - 2 ^ (64 - k) * m). split; [exact Hw |]. split.
  - intros Hr. apply wrap_small in Hr. rewrite Hw in Hr. nia.
  - replace ((a - 2 ^ (64 - k) * m) * 2 ^ k)
      with (a * 2 ^ k + (- m) * 2 ^ 64) by (rewrite Hpow; ring).
    apply Z.mod_add. lia.
Qed.

Lemma stepMask_land (n : Node) (nb sb x : Z) :
  layout n nb sb -> Z.land x (stepMask n) = x mod 2 ^ sb.
Proof.
  intros (_ & Hsb & _ & _ & _ & Hm & _). rewrite Hm.
  rewrite <- Z.land_ones by lia. f_equal. rewrite Z.ones_equiv. lia.
Qed.

Lemma nodeMask_land_shr (n : Node) (nb sb x : Z) :
  layout n nb sb ->
  Z.shiftr (Z.land x (nodeMask n)) (nodeShift n) = (x / 2 ^ sb) mod 2 ^ nb.
Proof.
  intros (Hnb & Hsb & _ & Hmax & Hmask & _ & _ & Hns & _).
  rewrite Hmask, Hns, Hmax.
  rewrite Z.shiftr_land, Z.shiftr_shiftl_l by lia.
  rewrite Z.sub_diag, Z.shiftl_0_r.
  replace (2 ^ nb - 1) with (Z.ones nb) by (rewrite Z.ones_equiv; lia).
  rewrite Z.land_ones by lia. now rewrite Z.shiftr_div_pow2 by lia.
Qed.

(** The identifier is the sum of its three fields, the timestamp field
    being the low bits of [now] that the shift keeps. *)
Lemma pack_sum (n : Node) (nb sb now : Z) :
  layout n nb sb -> 0 <= step n <= stepMask n ->
  pack n now = Int64.shl now (nb + sb) + node n * 2 ^ sb + step n.
Proof.
  intros Hl Hst.
  destruct Hl as (Hnb & Hsb & Hsum & Hmax & Hmask & Hsm & Hts & Hns & Hnd).
  assert (HA : 0 < 2 ^ sb) by (apply Z.pow_pos_nonneg; lia).
  assert (HB : 0 < 2 ^ nb) by (apply Z.pow_pos_nonneg; lia).
  assert (HA16 : 2 ^ sb <= 2 ^ 16) by (apply pow2_le; lia).
  assert (HAB : 2 ^ (nb + sb) = 2 ^ nb * 2 ^ sb) by (apply Z.pow_add_r; lia).
  assert (HAB22 : 2 ^ (nb + sb) <= 2 ^ 22) by (apply pow2_le; lia).
  change (2 ^ 16) with 65536 in HA16. change (2 ^ 22) with 4194304 in HAB22.
  destruct (shl_multiple now (nb + sb) ltac:(lia)) as (q & Hq & _).
  unfold pack. rewrite Hts, Hns, Hq.
  rewrite (shl_small (node n) sb)
    by (try lia; unfold Int64.in_range, Int64.min_int, Int64.max_int; nia).
  rewrite (lor_add (nb + sb) (q * 2 ^ (nb + sb)) (node n * 2 ^ sb));
    [| lia | apply Z.mod_mul; lia | rewrite HAB; nia].
  rewrite HAB.
  assert (Hmod : (q * (2 ^ nb * 2 ^ sb) + node n * 2 ^ sb) mod 2 ^ sb = 0).
  { replace (q * (2 ^ nb * 2 ^ sb) + node n * 2 ^ sb)
      with ((q * 2 ^ nb + node n) * 2 ^ sb) by ring.
    apply Z.mod_mul. lia. }
  apply (lor_add sb); [lia | exact Hmod | lia].
Qed.

(** The extraction functions invert the packing. *)
Lemma pack_fields (n : Node) (nb sb now : Z) :
  layout n nb sb -> 0 <= step n <= stepMask n ->
  Step (pack n now) n = step n /\
  NodeID (pack n now) n = node n /\
  TimeOffset (pack n now) n =
    Int64.shr (Int64.shl now (timeShift n)) (timeShift n) /\
  (Int64.in_range (now * 2 ^ (nb + sb)) -> TimeOffset (pack n now) n = now).
Proof.
  intros Hl Hst.
  pose proof (pack_sum n nb sb now Hl Hst) as Hp.
  unfold Step, NodeID, TimeOffset, Int64.shr.
  rewrite (stepMask_land n nb sb) by assumption.
  rewrite (nodeMask_land_shr n nb sb) by assumption.
  destruct Hl as (Hnb & Hsb & Hsum & Hmax & Hmask & Hsm & Hts & Hns & Hnd).
  assert (HA : 0 < 2 ^ sb) by (apply Z.pow_pos_nonneg; lia).
  assert (HB : 0 < 2 ^ nb) by (apply Z.pow_pos_nonneg; lia).
  destruct (shl_multiple now (nb + sb) ltac:(lia)) as (q & Hq & Hqs & _).
  destruct (fields_of_sum (2 ^ sb) (2 ^ nb) q (node n) (step n)
              HA HB ltac:(lia) ltac:(lia)) as (F1 & F2 & F3).
  assert (HAB : 2 ^ (nb + sb) = 2 ^ nb * 2 ^ sb) by (apply Z.pow_add_r; lia).
  assert (Hshl : Int64.shl now (nb + sb) / 2 ^ (nb + sb) = q)
    by (rewrite Hq; apply Z.div_mul; lia).
  assert (Hid : pack n now = q * (2 ^ nb * 2 ^ sb) + node n * 2 ^ sb + step n)
    by (rewrite Hp, Hq, HAB; reflexivity).
  rewrite Hts. rewrite !Z.shiftr_div_pow2 by lia.
  rewrite Hshl. rewrite Hid. rewrite F1, F2.
  replace (2 ^ (nb + sb)) with (2 ^ nb * 2 ^ sb) at 1.
  rewrite F3. repeat split; auto.
  intros Hr. rewrite HAB. rewrite F3. auto.
Qed.

(** ** One call of [Generate] *)

Ltac run_monad :=
  cbv beta iota zeta delta
      [Generate GenerateBatch bind ret sinceEpochMs getNode setStep setTime
       waitNextMs issued clock gen time node step nodeMax nodeMask stepMask
       timeShift nodeShift].

Lemma Generate_eq (n : Node) (clk : list Z) :
  Generate (mkWorld n clk) =
  match clk with
  | [] => None
  | now :: rest =>
      if now =? time n then
        let s := Z.land (Int64.add (step n) 1) (stepMask n) in
        if s =? 0 then
          match spin (time n) now rest with
          | Some (now', clk') =>
              Some (pack (issued n now' s) now', mkWorld (issued n now' s) clk')
          | None => None
          end
        else Some (pack (issued n now s) now, mkWorld (issued n now s) rest)
      else Some (pack (issued n now 0) now, mkWorld (issued n now 0) rest)
  end.
Proof.
  destruct n as [t nd st nmax nmask smask ts ns].
  destruct clk as [| now rest]; [reflexivity |].
  run_monad.
  destruct (now =? t); [| reflexivity].
  destruct (Z.land (Int64.add st 1) smask =? 0); [| reflexivity].
  destruct (spin t now rest) as [[now' clk'] |]; reflexivity.
Qed.

(** What the busy-wait loop returns: the first sample after [t], the samples
    before it being skipped. *)
Lemma spin_spec (t : Z) (clk : list Z) :
  forall now now' clk',
    spin t now clk = Some (now', clk') ->
    t < now' /\
    exists skipped,
      now :: clk = skipped ++ now' :: clk' /\ Forall (fun s => s <= t) skipped.
Proof.
  induction clk as [| c rest IH]; intros now now' clk' H; cbn [spin] in H.
  - destruct (now <=? t) eqn:E; [discriminate |].
    injection H as <- <-. split; [lia |]. exists []. split; [reflexivity | constructor].
  - destruct (now <=? t) eqn:E.
    + destruct (IH _ _ _ H) as [Hlt [sk [Hsk Hall]]].
      split; [exact Hlt |]. exists (now :: sk). split.
      * cbn. now rewrite Hsk.
      * constructor; [lia | exact Hall].
    + injection H as <- <-. split; [lia |]. exists []. split; [reflexivity | constructor].
Qed.

Lemma spin_complete (t : Z) (skipped : list Z) :
  forall now' clk',
    Forall (fun s => s <= t) skipped -> t < now' ->
    forall now rest, now :: rest = skipped ++ now' :: clk' ->
    spin t now rest = Some (now', clk').
Proof.
  induction skipped as [| s sk IH]; intros now' clk' Hall Hlt now rest E.
  - cbn in E. injection E as -> ->.
    destruct clk'; cbn [spin];
      assert (Hn : (now' <=? t) = false) by lia; now rewrite Hn.
  - cbn in E. injection E as -> ->.
    inversion Hall as [| ? ? Hs Hall']; subst.
    destruct sk as [| s' sk'].
    + cbn. assert (Hn : (s <=? t) = true) by lia. rewrite Hn.
      apply (IH now' clk' Hall' Hlt). reflexivity.
    + cbn [app spin]. assert (Hn : (s <=? t) = true) by lia. rewrite Hn.
      apply (IH now' clk' Hall' Hlt). reflexivity.
Qed.

Lemma step_incr_no_wrap (n : Node) :
  node_ok n -> Int64.add (step n) 1 = step n + 1.
Proof.
  intros [(nb & sb & Hl) Hst].
  destruct Hl as (Hnb & Hsb & Hsum & Hmax & Hmask & Hsm & Hts & Hns & Hnd).
  assert (HA16 : 2 ^ sb <= 2 ^ 16) by (apply pow2_le; lia).
  change (2 ^ 16) with 65536 in HA16.
  apply wrap_small. unfold Int64.in_range, Int64.min_int, Int64.max_int. lia.
Qed.

Lemma pack_issued (n : Node) (t s now : Z) :
  pack (issued n t s) now =
  Z.lor (Z.lor (Int64.shl now (timeShift n))
               (Int64.shl (node n) (nodeShift n))) s.
Proof. reflexivity. Qed.

Lemma spin_total (t : Z) (clk : list Z) :
  forall now,
    Exists (fun s => t < s) (now :: clk) ->
    exists now' clk', spin t now clk = Some (now', clk').
Proof.
  induction clk as [| c rest IH]; intros now H; cbn [spin].
  - destruct (now <=? t) eqn:E; [| eauto].
    inversion H as [? ? H1 | ? ? H1]; subst; [lia | inversion H1].
  - destruct (now <=? t) eqn:E; [| eauto].
    apply IH. inversion H as [? ? H1 | ? ? H1]; subst; [lia | exact H1].
Qed.

Lemma Generate_returns (n : Node) (clk : list Z) :
  Exists (fun s => time n < s) clk ->
  exists id w', Generate (mkWorld n clk) = Some (id, w').
Proof.
  intros H. rewrite Generate_eq.
  destruct clk as [| now rest]; [inversion H |].
  destruct (now =? time n); [| eauto].
  cbv zeta. destruct (_ =? 0); [| eauto].
  destruct (spin_total _ _ _ H) as (now' & clk' & E). rewrite E. eauto.
Qed.

(** C4.  [Generate] makes exactly the transition its specification
    describes: with [now] the first clock reading, an equal [lastTime]
    increments the step under the mask and, when that wraps to 0, readings
    are skipped up to the first one after [lastTime]; any other [now],
    earlier ones included, resets the step to 0; [lastTime] becomes [now] and
    the identifier is [(now << timeShift) | (node << nodeShift) | step].  The
    call returns as soon as the clock shows a reading after [lastTime]. *)
Theorem Generate_transition (n : Node) (clk : list Z) :
  node_ok n ->
  (forall id n' clk',
      Generate (mkWorld n clk) = Some (id, mkWorld n' clk') <->
      generate_spec n clk id n' clk') /\
  (Exists (fun s => time n < s) clk ->
   exists id w', Generate (mkWorld n clk) = Some (id, w')).
Proof.
  intros Hok. split; [| apply Generate_returns].
  intros id n' clk'. rewrite Generate_eq, (step_incr_no_wrap n Hok).
  split.
  - destruct clk as [| now rest]; [discriminate |].
    destruct (now =? time n) eqn:Hnow.
    + apply Z.eqb_eq in Hnow. cbv zeta.
      destruct (Z.land (step n + 1) (stepMask n) =? 0) eqn:Hs.
      * apply Z.eqb_eq in Hs. rewrite Hs.
        destruct (spin (time n) now rest) as [[now' clk''] |] eqn:Hspin;
          [| discriminate].
        intros E. injection E as <- <- <-.
        destruct (spin_spec _ _ _ _ _ Hspin) as [Hlt [sk [Hsk Hall]]].
        destruct sk as [| s0 sk'].
        { cbn in Hsk. injection Hsk as Hsk _. lia. }
        cbn in Hsk. injection Hsk as <- ->.
        inversion Hall; subst.
        rewrite pack_issued. apply spec_exhausted; auto.
      * apply Z.eqb_neq in Hs.
        intros E. injection E as <- <- <-.
        rewrite pack_issued. apply spec_same_ms; auto.
    + apply Z.eqb_neq in Hnow.
      intros E. injection E as <- <- <-.
      rewrite pack_issued. apply spec_new_ms; auto.
  - intros H. inversion H; subst.
    + rewrite Z.eqb_refl. cbv zeta.
      match goal with Hs : Z.land _ _ <> 0 |- _ =>
        apply Z.eqb_neq in Hs; rewrite Hs end.
      reflexivity.
    + rewrite Z.eqb_refl. cbv zeta.
      match goal with Hs : Z.land _ _ = 0 |- _ => rewrite Hs end.
      rewrite Z.eqb_refl.
      rewrite (spin_complete (time n) (time n :: skipped) now' clk');
        [reflexivity | constructor; [lia | assumption] | assumption
         | reflexivity].
    + match goal with Hs : _ <> time n |- _ =>
        apply Z.eqb_neq in Hs; rewrite Hs end.
      reflexivity.
Qed.

(** ** One call of [GenerateBatch] *)

Lemma issued_issued (n : Node) (t s t' s' : Z) :
  issued (issued n t s) t' s' = issued n t' s'.
Proof. reflexivity. Qed.

Lemma issued_same (n : Node) : issued n (time n) (step n) = n.
Proof. destruct n. reflexivity. Qed.

(** The emitting loop issues [count] identifiers with consecutive steps,
    starting at the current one, and leaves the step after the last. *)
Lemma batch_loop_eq (count : nat) (now : Z) (clk : list Z) :
  forall n,
    Int64.min_int <= step n -> step n + Z.of_nat count <= Int64.max_int ->
    batch_loop count now (mkWorld n clk) =
    Some (map (fun i => pack (issued n (time n) (step n + Z.of_nat i)) now)
              (seq 0 count),
          mkWorld (issued n (time n) (step n + Z.of_nat count)) clk).
Proof.
  induction count as [| k IH]; intros n Hlo Hhi.
  - cbn. rewrite Z.add_0_r, issued_same. reflexivity.
  - cbn [batch_loop]. unfold bind at 1. unfold getNode at 1. cbn [gen].
    unfold bind at 1. unfold setStep at 1. cbn [gen clock].
    fold (issued n (time n) (Int64.add (step n) 1)).
    unfold Int64.add.
    rewrite wrap_small
      by (unfold Int64.in_range, Int64.min_int, Int64.max_int in *; lia).
    unfold bind at 1. rewrite IH by (cbn [step issued]; lia).
    unfold ret. cbn [issued time step]. rewrite issued_issued.
    f_equal. f_equal.
    + cbn [seq map]. f_equal.
      * rewrite Z.add_0_r. now rewrite issued_same.
      * rewrite <- seq_shift, map_map. apply map_ext. intros i.
        rewrite issued_issued. do 2 f_equal. lia.
    + do 2 f_equal. lia.
Qed.

Lemma GenerateBatch_eq (n : Node) (count : Z) (clk : list Z) :
  GenerateBatch count (mkWorld n clk) =
  if count <=? 0 then Some (([], Some ErrCountPositive), mkWorld n clk)
  else if count >? stepMask n
       then Some (([], Some (ErrCountMax (stepMask n))), mkWorld n clk)
       else match batch_start n count clk with
            | None => None
            | Some (now, s, clk') =>
                match batch_loop (Z.to_nat count) now
                        (mkWorld (issued n now s) clk') with
                | Some (ids, w) => Some ((ids, None), w)
                | None => None
                end
            end.
Proof.
  destruct n as [t nd st nmax nmask smask ts ns].
  unfold batch_start. run_monad.
  destruct (count <=? 0); [reflexivity |].
  destruct (count >? smask); [reflexivity |].
  destruct clk as [| now rest]; [reflexivity |].
  destruct (now =? t).
  - destruct (Int64.add st count >? smask).
    + destruct (spin t now rest) as [[now' clk'] |]; reflexivity.
    + reflexivity.
  - reflexivity.
Qed.

(** C6.  [GenerateBatch] fails exactly when [count <= 0] or
    [count > stepMask]; the failure comes before the clock is read and
    leaves the generator as it was; a count within [1, stepMask] never
    fails. *)
Theorem GenerateBatch_argument_error (w : World) (count : Z) :
  ((exists ids e w', GenerateBatch count w = Some ((ids, Some e), w')) <->
   (count <= 0 \/ count > stepMask (gen w))) /\
  (forall ids e w', GenerateBatch count w = Some ((ids, Some e), w') ->
                    w' = w /\ ids = [] /\
                    (e = ErrCountPositive \/ e = ErrCountMax (stepMask (gen w)))) /\
  (forall r w', 1 <= count <= stepMask (gen w) ->
                GenerateBatch count w = Some (r, w') -> snd r = None).
Proof.
  destruct w as [n clk]. cbn [gen]. rewrite GenerateBatch_eq.
  destruct (count <=? 0) eqn:H0.
  { apply Z.leb_le in H0. repeat split.
    - intros _. now left.
    - intros _. eauto.
    - congruence.
    - congruence.
    - left. congruence.
    - intros; lia. }
  apply Z.leb_gt in H0.
  destruct (count >? stepMask n) eqn:H1.
  { assert (count > stepMask n) by lia. repeat split.
    - intros _. now right.
    - intros _. eauto.
    - congruence.
    - congruence.
    - right. congruence.
    - intros; lia. }
  assert (count <= stepMask n) by lia.
  assert (Hnone : forall ids e w',
             match batch_start n count clk with
             | Some (now, s, clk') =>
                 match batch_loop (Z.to_nat count) now
                         (mkWorld (issued n now s) clk') with
                 | Some (ids, w) => Some (ids, @None error, w)
                 | None => None
                 end
             | None => None
             end = Some (ids, Some e, w') -> False).
  { intros ids e w'. destruct (batch_start n count clk) as [[[now s] clk'] |];
      [| discriminate].
    destruct (batch_loop _ _ _) as [[ids' w''] |]; discriminate. }
  repeat split.
  - intros (ids & e & w' & E). exfalso. eapply Hnone; eauto.
  - intros [? | ?]; lia.
  - exfalso. eapply Hnone; eauto.
  - exfalso. eapply Hnone; eauto.
  - exfalso. eapply Hnone; eauto.
  - intros [ids [e |]] w' _ E; [| reflexivity].
    exfalso. eapply Hnone; eauto.
Qed.

(** ** States a generator passes through *)

Lemma node_ok_issued (n : Node) (t s : Z) :
  node_ok n -> 0 <= s <= stepMask n -> node_ok (issued n t s).
Proof.
  intros [(nb & sb & Hl) _] Hs. split; [| exact Hs].
  exists nb, sb. exact Hl.
Qed.

Lemma layout_issued (n : Node) (nb sb t s : Z) :
  layout n nb sb -> layout (issued n t s) nb sb.
Proof. intros H. exact H. Qed.

Lemma land_stepMask_range (n : Node) (x : Z) :
  node_ok n -> 0 <= Z.land x (stepMask n) <= stepMask n.
Proof.
  intros [(nb & sb & Hl) _]. rewrite (stepMask_land n nb sb) by assumption.
  destruct Hl as (_ & Hsb & _ & _ & _ & Hm & _). rewrite Hm.
  pose proof (Z.mod_pos_bound x (2 ^ sb) ltac:(apply Z.pow_pos_nonneg; lia)).
  lia.
Qed.

Lemma stepMask_nonneg (n : Node) : node_ok n -> 0 <= stepMask n.
Proof. intros [_ H]. lia. Qed.

(** What a returning call of [Generate] issues and leaves behind. *)
Lemma Generate_issues (n : Node) (clk : list Z) (id : ID) (w' : World) :
  node_ok n ->
  Generate (mkWorld n clk) = Some (id, w') ->
  exists now s skipped,
    id = pack (issued n now s) now /\
    gen w' = issued n now s /\
    0 <= s <= stepMask n /\
    clk = skipped ++ now :: clock w' /\
    ((now = time n /\ s = step n + 1 /\ skipped = []) \/
     (now <> time n /\ s = 0 /\ skipped = []) \/
     (time n < now /\ s = 0)).
Proof.
  intros Hok. pose proof (stepMask_nonneg n Hok) as Hm.
  rewrite Generate_eq, (step_incr_no_wrap n Hok).
  destruct clk as [| now rest]; [discriminate |].
  destruct (now =? time n) eqn:Hnow.
  - apply Z.eqb_eq in Hnow. cbv zeta.
    destruct (Z.land (step n + 1) (stepMask n) =? 0) eqn:Hs.
    + apply Z.eqb_eq in Hs. rewrite Hs.
      destruct (spin (time n) now rest) as [[now' clk'] |] eqn:Hspin;
        [| discriminate].
      intros E. injection E as <- <-.
      destruct (spin_spec _ _ _ _ _ Hspin) as [Hlt [sk [Hsk Hall]]].
      exists now', 0, sk. cbn [gen clock]. repeat split; auto; lia.
    + apply Z.eqb_neq in Hs.
      intros E. injection E as <- <-.
      pose proof (land_stepMask_range n (step n + 1) Hok) as Hr.
      exists now, (Z.land (step n + 1) (stepMask n)), [].
      cbn [gen clock app]. repeat split; auto; try lia.
      left. repeat split; auto.
      destruct Hok as [(nb & sb & Hl) Hst].
      rewrite (stepMask_land n nb sb) in * by assumption.
      destruct Hl as (_ & Hsb & _ & _ & _ & Hsm & _).
      assert (0 < 2 ^ sb) by (apply Z.pow_pos_nonneg; lia).
      destruct (Z.eq_dec (step n + 1) (2 ^ sb)) as [E | E].
      * rewrite E, Z.mod_same in Hs by lia. congruence.
      * apply Z.mod_small. lia.
  - apply Z.eqb_neq in Hnow.
    intros E. injection E as <- <-.
    exists now, 0, []. cbn [gen clock app]. repeat split; auto; try lia.
Qed.

(** C8.  On every identifier packed by a validly constructed generator the
    extraction functions are the projections of the packing: [NodeID] is
    [(id & nodeMask) >> nodeShift] and gives the configured node, [Step] is
    [id & stepMask] and gives the packed step, a value in [0, stepMask].
    The identifiers that [Generate] returns are of that form. *)
Theorem extraction_inverts_packing (cfg : Config.t) (n : Node) :
  Config.wf cfg -> NewNodeWithConfig cfg = Ok n ->
  (forall t s,
      0 <= s <= stepMask n ->
      let id := Z.lor (Z.lor (Int64.shl t (timeShift n))
                             (Int64.shl (node n) (nodeShift n))) s in
      NodeID id n = Int64.shr (Z.land id (nodeMask n)) (nodeShift n) /\
      NodeID id n = Config.Node cfg /\
      Step id n = Z.land id (stepMask n) /\
      Step id n = s /\
      0 <= Step id n <= stepMask n) /\
  (forall n' clk id w',
      same_generator n n' -> node_ok n' ->
      Generate (mkWorld n' clk) = Some (id, w') ->
      NodeID id n = Config.Node cfg /\ 0 <= Step id n <= stepMask n).
Proof.
  intros Hwf Hnew.
  destruct (NewNodeWithConfig_layout cfg n Hwf Hnew) as (Hl & Hnode & _ & _).
  assert (Hfields : forall t s, 0 <= s <= stepMask n ->
            Step (pack (issued n 0 s) t) n = s /\
            NodeID (pack (issued n 0 s) t) n = Config.Node cfg).
  { intros t s Hs.
    destruct (pack_fields (issued n 0 s) _ _ t (layout_issued n _ _ 0 s Hl) Hs)
      as (F1 & F2 & _).
    unfold Step, NodeID in *. cbn [issued stepMask nodeMask nodeShift step node]
      in F1, F2. rewrite <- Hnode. split; assumption. }
  split.
  - intros t s Hs id.
    destruct (Hfields t s Hs) as [F1 F2]. rewrite pack_issued in F1, F2.
    fold id in F1, F2. repeat split; try assumption; lia.
  - intros n' clk id w' Hsame Hok' Hgen.
    destruct Hsame as (S1 & S2 & S3 & S4 & S5 & S6).
    destruct (Generate_issues n' clk id w' Hok' Hgen)
      as (now & s & sk & Hid & _ & Hs & _).
    rewrite S4 in Hs. destruct (Hfields now s Hs) as [F1 F2].
    assert (E : id = pack (issued n 0 s) now).
    { rewrite Hid, !pack_issued. now rewrite S1, S5, S6. }
    rewrite E. rewrite F1, F2. split; [reflexivity | lia].
Qed.

Lemma stepMask_small (n : Node) : node_ok n -> 0 <= stepMask n < 65536.
Proof.
  intros [(nb & sb & Hl) Hst].
  destruct Hl as (_ & Hsb & _ & _ & _ & Hsm & _).
  assert (HA16 : 2 ^ sb <= 2 ^ 16) by (apply pow2_le; lia).
  change (2 ^ 16) with 65536 in HA16. lia.
Qed.

Lemma batch_start_spec (n : Node) (k : Z) (clk : list Z) (now s : Z)
      (clk' : list Z) :
  node_ok n -> 1 <= k <= stepMask n ->
  batch_start n k clk = Some (now, s, clk') ->
  0 <= s /\ s + k <= stepMask n /\
  exists now0 rest,
    clk = now0 :: rest /\
    ((now0 = time n /\ step n + k > stepMask n /\ time n < now /\ s = 0) \/
     (now0 = time n /\ step n + k <= stepMask n /\ now = now0 /\ s = step n) \/
     (now0 <> time n /\ now = now0 /\ s = 0)).
Proof.
  intros Hok Hk. pose proof (stepMask_small n Hok) as Hm.
  destruct Hok as [_ Hst].
  unfold batch_start. destruct clk as [| now0 rest]; [discriminate |].
  unfold Int64.add.
  rewrite wrap_small
    by (unfold Int64.in_range, Int64.min_int, Int64.max_int; lia).
  destruct (now0 =? time n) eqn:Hnow.
  - apply Z.eqb_eq in Hnow.
    destruct (step n + k >? stepMask n) eqn:Hfit.
    + destruct (spin (time n) now0 rest) as [[now' clk''] |] eqn:Hspin;
        [| discriminate].
      intros E. injection E as <- <- <-.
      destruct (spin_spec _ _ _ _ _ Hspin) as [Hlt _].
      repeat split; try lia. exists now0, rest. split; [reflexivity |].
      left. repeat split; lia.
    + intros E. injection E as <- <- <-.
      repeat split; try lia. exists now0, rest. split; [reflexivity |].
      right. left. repeat split; lia.
  - apply Z.eqb_neq in Hnow.
    intros E. injection E as <- <- <-.
    repeat split; try lia. exists now0, rest. split; [reflexivity |].
    right. right. repeat split; lia.
Qed.

Lemma batch_start_total (n : Node) (k : Z) (clk : list Z) :
  Exists (fun t => time n < t) clk ->
  exists now s clk', batch_start n k clk = Some (now, s, clk').
Proof.
  intros H. unfold batch_start.
  destruct clk as [| now0 rest]; [inversion H |].
  destruct (now0 =? time n); [| eauto].
  destruct (_ >? _); [| eauto].
  destruct (spin_total _ _ _ H) as (now' & clk' & E). rewrite E. eauto.
Qed.

(** What a returning batch issues and leaves behind. *)
Lemma GenerateBatch_issues (n : Node) (clk : list Z) (k : Z)
      (r : list ID * option error) (w' : World) :
  node_ok n -> 1 <= k <= stepMask n ->
  GenerateBatch k (mkWorld n clk) = Some (r, w') ->
  exists now s clk',
    batch_start n k clk = Some (now, s, clk') /\
    r = (map (fun i => pack (issued n now (s + Z.of_nat i)) now)
             (seq 0 (Z.to_nat k)), None) /\
    w' = mkWorld (issued n now (s + k)) clk'.
Proof.
  intros Hok Hk. pose proof (stepMask_small n Hok) as Hm.
  rewrite GenerateBatch_eq.
  assert (H0 : (k <=? 0) = false) by lia.
  assert (H1 : (k >? stepMask n) = false) by lia.
  rewrite H0, H1.
  destruct (batch_start n k clk) as [[[now s] clk'] |] eqn:Hstart;
    [| discriminate].
  destruct (batch_start_spec n k clk now s clk' Hok Hk Hstart)
    as (Hs0 & Hsk & _).
  rewrite batch_loop_eq
    by (cbn [issued step]; rewrite ?Z2Nat.id by lia;
        unfold Int64.min_int, Int64.max_int; lia).
  cbn [issued time step]. rewrite issued_issued, Z2Nat.id by lia.
  intros E. injection E as <- <-. exists now, s, clk'. auto.
Qed.

(** The readings a batch consumes: the first one, and, where the run does
    not fit into an unchanged millisecond, the readings up to the first one
    after [lastTime], which the batch is stamped with. *)
Lemma spin_skips (t now now' : Z) (rest clk' : list Z) :
  now <= t -> spin t now rest = Some (now', clk') ->
  t < now' /\
  exists skipped,
    rest = skipped ++ now' :: clk' /\ Forall (fun s => s <= t) skipped.
Proof.
  intros Hle Hspin.
  destruct (spin_spec _ _ _ _ _ Hspin) as [Hlt [sk [Hsk Hall]]].
  split; [exact Hlt |].
  destruct sk as [| s0 sk'].
  - cbn in Hsk. injection Hsk as -> _. lia.
  - cbn in Hsk. injection Hsk as _ ->. inversion Hall; subst.
    exists sk'. split; [reflexivity | assumption].
Qed.

Lemma batch_start_readings (n : Node) (k : Z) (clk : list Z) (now s : Z)
      (clk' : list Z) :
  node_ok n -> 1 <= k <= stepMask n ->
  batch_start n k clk = Some (now, s, clk') ->
  exists now0 rest,
    clk = now0 :: rest /\
    (now0 = time n /\ step n + k > stepMask n ->
     s = 0 /\ time n < now /\
     exists skipped,
       rest = skipped ++ now :: clk' /\
       Forall (fun t => t <= time n) skipped) /\
    (now0 = time n /\ step n + k <= stepMask n ->
     now = now0 /\ s = step n /\ clk' = rest) /\
    (now0 <> time n -> now = now0 /\ s = 0 /\ clk' = rest).
Proof.
  intros Hok Hk. pose proof (stepMask_small n Hok) as Hm.
  destruct Hok as [_ Hst].
  unfold batch_start. destruct clk as [| now0 rest]; [discriminate |].
  unfold Int64.add.
  rewrite wrap_small
    by (unfold Int64.in_range, Int64.min_int, Int64.max_int; lia).
  intros H. exists now0, rest. split; [reflexivity |].
  destruct (now0 =? time n) eqn:Hnow.
  - apply Z.eqb_eq in Hnow.
    destruct (step n + k >? stepMask n) eqn:Hfit.
    + destruct (spin (time n) now0 rest) as [[now' clk''] |] eqn:Hspin;
        [| discriminate].
      injection H as <- <- <-.
      assert (Hle : now0 <= time n) by lia.
      destruct (spin_skips _ _ _ _ _ Hle Hspin) as [Hlt Hsk].
      split; [intros _; auto |]. split; intros; lia.
    + injection H as <- <- <-.
      split; [intros; lia |]. split; [intros; auto | intros; lia].
  - apply Z.eqb_neq in Hnow. injection H as <- <- <-.
    split; [intros; lia |]. split; [intros; lia | intros; auto].
Qed.

(** A batch returns on its first reading when that reading is not
    [lastTime] or the run fits; otherwise it returns exactly when a later
    reading follows. *)
Lemma batch_start_returns_iff (n : Node) (k : Z) (clk : list Z) :
  node_ok n -> 1 <= k <= stepMask n ->
  ((exists now s clk', batch_start n k clk = Some (now, s, clk')) <->
   exists now0 rest,
     clk = now0 :: rest /\
     (now0 <> time n \/ step n + k <= stepMask n \/
      Exists (fun t => time n < t) rest)).
Proof.
  intros Hok Hk. pose proof (stepMask_small n Hok) as Hm.
  destruct Hok as [_ Hst].
  unfold batch_start. destruct clk as [| now0 rest].
  { split; [intros (? & ? & ? & H); discriminate
           | intros (? & ? & H & _); discriminate]. }
  unfold Int64.add.
  rewrite wrap_small
    by (unfold Int64.in_range, Int64.min_int, Int64.max_int; lia).
  destruct (now0 =? time n) eqn:Hnow.
  - apply Z.eqb_eq in Hnow.
    destruct (step n + k >? stepMask n) eqn:Hfit.
    + split.
      * intros (now & s & clk' & H).
        destruct (spin (time n) now0 rest) as [[now' clk''] |] eqn:Hspin;
          [| discriminate].
        assert (Hle : now0 <= time n) by lia.
        destruct (spin_skips _ _ _ _ _ Hle Hspin) as [Hlt (sk & Hsk & _)].
        exists now0, rest. split; [reflexivity |]. right. right.
        rewrite Hsk. apply Exists_app. right. apply Exists_cons_hd. exact Hlt.
      * intros (now1 & rest1 & E & Hcase). injection E as <- <-.
        destruct Hcase as [? | [? | Hex]]; [lia | lia |].
        destruct (spin_total (time n) rest now0 (Exists_cons_tl _ Hex))
          as (now' & clk' & Hspin).
        rewrite Hspin. eauto.
    + split; [| eauto]. intros _. exists now0, rest.
      split; [reflexivity |]. right. left. lia.
  - apply Z.eqb_neq in Hnow. split; [| eauto]. intros _. exists now0, rest.
    split; [reflexivity |]. left. exact Hnow.
Qed.

(** C5.  For [1 <= k <= stepMask], a returning [GenerateBatch(k)] yields
    exactly [k] identifiers, all with one timestamp field and the
    generator's node, their steps being the run [s, s+1, ..., s+k-1] within
    the mask.  On a first reading equal to [lastTime] the run continues at
    [lastStep] if it fits; if it does not, the batch waits: it skips the
    readings that follow up to the first one after [lastTime], is stamped
    with that reading and restarts at 0; on any other first reading it is
    stamped with it and starts at 0.  The clock left is what follows the
    reading the batch is stamped with: a batch lies within one millisecond.
    The call returns on its first reading unless it has to wait, and then
    exactly when a reading after [lastTime] follows. *)
Theorem GenerateBatch_contract (n : Node) (clk : list Z) (k : Z) :
  node_ok n -> 1 <= k <= stepMask n ->
  (forall r w',
      GenerateBatch k (mkWorld n clk) = Some (r, w') ->
      exists now s,
        snd r = None /\
        Z.of_nat (List.length (fst r)) = k /\
        0 <= s /\ s + k <= stepMask n /\
        gen w' = issued n now (s + k) /\
        (forall i, 0 <= i < k ->
                   let id := nth (Z.to_nat i) (fst r) 0 in
                   id = Z.lor (Z.lor (Int64.shl now (timeShift n))
                                     (Int64.shl (node n) (nodeShift n)))
                              (s + i) /\
                   Step id n = s + i /\
                   NodeID id n = node n /\
                   TimeOffset id n =
                     Int64.shr (Int64.shl now (timeShift n)) (timeShift n)) /\
        (exists now0 rest,
            clk = now0 :: rest /\
            (now0 = time n /\ step n + k > stepMask n ->
             s = 0 /\ time n < now /\
             exists skipped,
               rest = skipped ++ now :: clock w' /\
               Forall (fun t => t <= time n) skipped) /\
            (now0 = time n /\ step n + k <= stepMask n ->
             now = now0 /\ s = step n /\ clock w' = rest) /\
            (now0 <> time n -> now = now0 /\ s = 0 /\ clock w' = rest))) /\
  ((exists r w', GenerateBatch k (mkWorld n clk) = Some (r, w')) <->
   exists now0 rest,
     clk = now0 :: rest /\
     (now0 <> time n \/ step n + k <= stepMask n \/
      Exists (fun t => time n < t) rest)) /\
  (Exists (fun t => time n < t) clk ->
   exists r w', GenerateBatch k (mkWorld n clk) = Some (r, w')).
Proof.
  intros Hok Hk. pose proof (stepMask_small n Hok) as Hm.
  assert (Hrun : forall now s clk',
             batch_start n k clk = Some (now, s, clk') ->
             exists r w', GenerateBatch k (mkWorld n clk) = Some (r, w')).
  { intros now s clk' Hstart. rewrite GenerateBatch_eq.
    assert (H0 : (k <=? 0) = false) by lia.
    assert (H1 : (k >? stepMask n) = false) by lia.
    rewrite H0, H1, Hstart.
    destruct (batch_start_spec n k clk now s clk' Hok Hk Hstart)
      as (Hs0 & Hsk & _).
    rewrite batch_loop_eq
      by (cbn [issued step]; rewrite ?Z2Nat.id by lia;
          unfold Int64.min_int, Int64.max_int; lia).
    eauto. }
  split; [| split].
  - intros r w' Hret.
    destruct (GenerateBatch_issues n clk k r w' Hok Hk Hret)
      as (now & s & clk' & Hstart & -> & ->).
    destruct (batch_start_spec n k clk now s clk' Hok Hk Hstart)
      as (Hs0 & Hsk & _).
    exists now, s. cbn [fst snd gen clock].
    rewrite length_map, length_seq, Z2Nat.id by lia.
    split; [reflexivity |]. split; [reflexivity |].
    split; [exact Hs0 |]. split; [exact Hsk |].
    split; [reflexivity |]. split.
    + intros i Hi.
      destruct Hok as [(nb & sb & Hl) _].
      rewrite (nth_indep _ 0 (pack (issued n now (s + Z.of_nat 0)) now))
        by (rewrite length_map, length_seq; lia).
      rewrite (map_nth (fun i => pack (issued n now (s + Z.of_nat i)) now)).
      rewrite seq_nth by lia. cbn [Nat.add]. rewrite Z2Nat.id by lia.
      destruct (pack_fields (issued n now (s + i)) nb sb now
                  (layout_issued n nb sb now (s + i) Hl)
                  ltac:(cbn [issued step stepMask]; lia)) as (F1 & F2 & F3 & _).
      split; [apply pack_issued |].
      split; [exact F1 |]. split; [exact F2 | exact F3].
    + exact (batch_start_readings n k clk now s clk' Hok Hk Hstart).
  - split.
    + intros (r & w' & Hret).
      destruct (GenerateBatch_issues n clk k r w' Hok Hk Hret)
        as (now & s & clk' & Hstart & _).
      apply (batch_start_returns_iff n k clk Hok Hk). eauto.
    + intros Hcond.
      apply (batch_start_returns_iff n k clk Hok Hk) in Hcond.
      destruct Hcond as (now & s & clk' & Hstart). eauto.
  - intros Hex.
    destruct (batch_start_total n k clk Hex) as (now & s & clk' & Hstart).
    eauto.
Qed.

(** ** Order of the identifiers issued under a clock that does not step back *)

Lemma unsigned_pack (n : Node) (now : Z) :
  node_ok n -> 0 <= now < 2 ^ (64 - timeShift n) ->
  unsigned (pack n now) =
  now * 2 ^ timeShift n + node n * 2 ^ nodeShift n + step n.
Proof.
  intros [(nb & sb & Hl) Hst] Hnow.
  rewrite (pack_sum n nb sb now Hl Hst).
  destruct Hl as (Hnb & Hsb & Hsum & Hmax & Hmask & Hsm & Hts & Hns & Hnd).
  rewrite Hts in *. rewrite Hns.
  destruct (shl_multiple now (nb + sb) ltac:(lia)) as (q & Hq & _ & Hqm).
  assert (HA : 0 < 2 ^ sb) by (apply Z.pow_pos_nonneg; lia).
  assert (HB : 0 < 2 ^ nb) by (apply Z.pow_pos_nonneg; lia).
  assert (HAB : 2 ^ (nb + sb) = 2 ^ nb * 2 ^ sb) by (apply Z.pow_add_r; lia).
  assert (H64 : 2 ^ 64 = 2 ^ (64 - (nb + sb)) * 2 ^ (nb + sb)).
  { rewrite <- Z.pow_add_r by lia. f_equal. lia. }
  unfold unsigned, Uint64.of_int64, Uint64.wrap.
  rewrite Hq, <- !Z.add_assoc, <- Z.add_mod_idemp_l, Hqm by lia.
  rewrite Z.add_mod_idemp_l by lia.
  apply Z.mod_small. rewrite H64. nia.
Qed.

Lemma StronglySorted_app_r (A : Type) (R : A -> A -> Prop) (l1 l2 : list A) :
  StronglySorted R (l1 ++ l2) -> StronglySorted R l2.
Proof.
  induction l1 as [| a l1 IH]; [auto |].
  cbn. intros H. apply StronglySorted_inv in H. tauto.
Qed.

Lemma StronglySorted_weaken (A : Type) (R S : A -> A -> Prop) (l : list A) :
  (forall a b, R a b -> S a b) -> StronglySorted R l -> StronglySorted S l.
Proof.
  intros HRS H. induction H as [| a l Hs IH Hall]; constructor; auto.
  eapply Forall_impl; [| exact Hall]. auto.
Qed.

Lemma same_generator_issued (n : Node) (t s : Z) :
  same_generator n (issued n t s).
Proof. repeat split. Qed.

(** One call under such a clock: the identifier issued is the one stamped
    by the new state, the clock left is such a clock again and has not gone
    back behind the new [lastTime], and the stamp has grown if the clock had
    not gone back behind the old one. *)
Lemma Generate_increases (n : Node) (clk : list Z) (id : ID) (w' : World) :
  node_ok n -> clock_ok n clk ->
  Generate (mkWorld n clk) = Some (id, w') ->
  node_ok (gen w') /\ same_generator n (gen w') /\
  clock_ok (gen w') (clock w') /\
  Forall (fun t => time (gen w') <= t) (clock w') /\
  unsigned id = last_key (gen w') /\
  (Forall (fun t => time n <= t) clk -> last_key n < last_key (gen w')).
Proof.
  intros Hok [Hsorted Hbound] Hgen.
  destruct (Generate_issues n clk id w' Hok Hgen)
    as (now & s & sk & Hid & Hw & Hs & Hclk & Hcases).
  rewrite Hw. rewrite Hclk in Hsorted, Hbound.
  apply StronglySorted_app_r in Hsorted.
  apply StronglySorted_inv in Hsorted. destruct Hsorted as [Hsorted Hle].
  apply Forall_app in Hbound. destruct Hbound as [_ Hbound].
  apply Forall_cons_iff in Hbound. destruct Hbound as [Hnow Hbound].
  pose proof (node_ok_issued n now s Hok Hs) as Hok'.
  split; [exact Hok' |]. split; [apply same_generator_issued |].
  split; [split; assumption |]. split; [exact Hle |].
  split.
  - rewrite Hid. apply (unsigned_pack (issued n now s) now Hok'). exact Hnow.
  - intros Htime. unfold last_key. cbn [issued time node step timeShift nodeShift].
    destruct Hok as [(nb & sb & Hl) Hst].
    destruct Hl as (Hnb & Hsb & Hsum & Hmax & Hmask & Hsm & Hts & Hns & Hnd).
    assert (HA : 0 < 2 ^ sb) by (apply Z.pow_pos_nonneg; lia).
    assert (HP : 2 ^ sb <= 2 ^ (nb + sb)) by (apply pow2_le; lia).
    rewrite Hts.
    assert (Hge : time n <= now).
    { rewrite Hclk in Htime. apply Forall_app in Htime.
      destruct Htime as [_ Htime]. apply Forall_cons_iff in Htime. tauto. }
    destruct Hcases as [(C1 & C2 & _) | [(C1 & C2 & _) | (C1 & C2)]].
    + subst. lia.
    + subst s. assert (time n + 1 <= now) by lia. nia.
    + subst s. assert (time n + 1 <= now) by lia. nia.
Qed.

Lemma generate_n_increasing (k : nat) :
  forall n clk ids w',
    node_ok n -> clock_ok n clk -> Forall (fun t => time n <= t) clk ->
    generate_n k (mkWorld n clk) = Some (ids, w') ->
    StronglySorted Z.lt (map unsigned ids) /\
    Forall (fun id => last_key n < unsigned id) ids.
Proof.
  induction k as [| k IH]; intros n clk ids w' Hok Hclk Htime Hrun.
  - cbn in Hrun. injection Hrun as <- _. split; constructor.
  - cbn [generate_n] in Hrun. unfold bind at 1 in Hrun.
    destruct (Generate (mkWorld n clk)) as [[id [n1 clk1]] |] eqn:Hgen;
      [| discriminate].
    unfold bind at 1 in Hrun.
    destruct (generate_n k (mkWorld n1 clk1)) as [[ids' w''] |] eqn:Hrest;
      [| discriminate].
    injection Hrun as <- _.
    destruct (Generate_increases n clk id _ Hok Hclk Hgen)
      as (Hok1 & Hsame & Hclk1 & Htime1 & Hid & Hlt).
    cbn [gen clock] in *. specialize (Hlt Htime).
    destruct (IH n1 clk1 ids' w'' Hok1 Hclk1 Htime1 Hrest) as [Hs Hall].
    cbn [map]. split.
    + constructor; [exact Hs |]. rewrite Forall_map, Hid. exact Hall.
    + constructor; [lia |].
      eapply Forall_impl; [| exact Hall]. cbn. intros; lia.
Qed.

Lemma scenario_config_wf : Config.wf scenario_config.
Proof.
  unfold Config.wf, Int64.in_range, Uint8.in_range, Int64.min_int,
    Int64.max_int. cbn. lia.
Qed.

Lemma scenario_node_new : NewNodeWithConfig scenario_config = Ok scenario_node.
Proof. vm_compute. reflexivity. Qed.

Lemma scenario_node_ok : node_ok scenario_node.
Proof.
  split; [exists 10, 12 | cbn; lia].
  unfold layout. cbn. repeat split; lia.
Qed.

(** C3, as stated, fails: when the clock steps back from 7 to 6 between two
    calls, the second identifier is below the first. *)
Lemma Generate_backward_clock_decreases :
  node_ok scenario_node /\
  generate_n 2 (mkWorld scenario_node [7; 6]) =
    Some ([29380608; 25186304], mkWorld (issued scenario_node 6 0) []) /\
  unsigned 25186304 < unsigned 29380608 /\
  ~ StronglySorted Z.le (map unsigned [29380608; 25186304]).
Proof.
  split; [exact scenario_node_ok |].
  split; [vm_compute; reflexivity |].
  split; [vm_compute; reflexivity |].
  intros H. apply StronglySorted_inv in H. destruct H as [_ H].
  apply Forall_cons_iff in H. destruct H as [H _].
  vm_compute in H. apply H. reflexivity.
Qed.

(** Under such a clock successive calls of [Generate] return strictly
    increasing identifiers, hence pairwise distinct ones. *)
Lemma Generate_strictly_increasing (n : Node) (clk : list Z) (k : nat)
      (ids : list ID) (w' : World) :
  node_ok n -> clock_ok n clk ->
  generate_n k (mkWorld n clk) = Some (ids, w') ->
  StronglySorted Z.lt (map unsigned ids).
Proof.
  intros Hok Hclk Hrun.
  destruct k as [| k].
  - cbn in Hrun. injection Hrun as <- _. constructor.
  - cbn [generate_n] in Hrun. unfold bind at 1 in Hrun.
    destruct (Generate (mkWorld n clk)) as [[id [n1 clk1]] |] eqn:Hgen;
      [| discriminate].
    unfold bind at 1 in Hrun.
    destruct (generate_n k (mkWorld n1 clk1)) as [[ids' w''] |] eqn:Hrest;
      [| discriminate].
    injection Hrun as <- _.
    destruct (Generate_increases n clk id _ Hok Hclk Hgen)
      as (Hok1 & Hsame & Hclk1 & Htime1 & Hid & _).
    cbn [gen clock] in *.
    destruct (generate_n_increasing k n1 clk1 ids' w'' Hok1 Hclk1 Htime1 Hrest)
      as [Hs Hall].
    cbn [map]. constructor; [exact Hs |].
    rewrite Forall_map, Hid. exact Hall.
Qed.

Lemma StronglySorted_lt_NoDup (l : list Z) : StronglySorted Z.lt l -> NoDup l.
Proof.
  induction 1 as [| a l Hs IH Hall]; constructor; [| exact IH].
  intros Hin. rewrite Forall_forall in Hall. specialize (Hall a Hin). lia.
Qed.

Lemma Generate_distinct (n : Node) (clk : list Z) (k : nat)
      (ids : list ID) (w' : World) :
  node_ok n -> clock_ok n clk ->
  generate_n k (mkWorld n clk) = Some (ids, w') ->
  NoDup ids.
Proof.
  intros Hok Hclk Hrun.
  apply (NoDup_map_inv unsigned). apply StronglySorted_lt_NoDup.
  exact (Generate_strictly_increasing n clk k ids w' Hok Hclk Hrun).
Qed.

(** C3, amended.  Under a clock that does not step back between readings
    and stays within the timestamp field, the identifiers returned by
    successive calls of [Generate], in call order, are non-decreasing as
    unsigned 64-bit magnitudes. *)
Theorem Generate_monotone (n : Node) (clk : list Z) (k : nat)
        (ids : list ID) (w' : World) :
  node_ok n -> clock_ok n clk ->
  generate_n k (mkWorld n clk) = Some (ids, w') ->
  StronglySorted Z.le (map unsigned ids).
Proof.
  intros Hok Hclk Hrun.
  apply (StronglySorted_weaken Z Z.lt Z.le); [intros; lia |].
  exact (Generate_strictly_increasing n clk k ids w' Hok Hclk Hrun).
Qed.

Lemma Generate_monotone_witness :
  StronglySorted Z.le
    (map unsigned [29380608; 29380609; 33574912]).
Proof.
  apply (Generate_monotone scenario_node [7; 7; 8] 3 _
           (mkWorld (issued scenario_node 8 0) [])).
  - exact scenario_node_ok.
  - split.
    + repeat constructor; lia.
    + repeat constructor; cbn; lia.
  - vm_compute. reflexivity.
Defined.

(** C2: the code reissues an identifier.  Within one millisecond
    [Generate] leaves [lastStep] at the step it issued, while
    [GenerateBatch] starts its run at [lastStep] itself: a batch that
    follows a single identifier repeats it, and a single identifier that
    follows a batch skips a step. *)
Theorem Generate_then_GenerateBatch_reissues :
  node_ok scenario_node /\
  run_calls [CallGenerate; CallGenerateBatch 1]
            (mkWorld scenario_node [7; 7]) =
    Some ([29380608; 29380608], mkWorld (issued scenario_node 7 1) []) /\
  ~ NoDup [29380608; 29380608] /\
  Step 29380608 scenario_node = 0 /\
  run_calls [CallGenerateBatch 2; CallGenerate]
            (mkWorld scenario_node [7; 7]) =
    Some ([29380608; 29380609; 29380611],
          mkWorld (issued scenario_node 7 3) []) /\
  Step 29380609 scenario_node = 1 /\ Step 29380611 scenario_node = 3.
Proof.
  split; [exact scenario_node_ok |].
  split; [vm_compute; reflexivity |].
  split.
  { intros H. inversion H as [| ? ? Hin _]; subst. apply Hin. now left. }
  repeat split; vm_compute; reflexivity.
Qed.

(** C7.  Construction fails exactly when [NodeBits > 16], [StepBits > 16],
    [NodeBits + StepBits > 22] or the node is outside
    [0, 2^NodeBits - 1], and then yields no generator; on success the
    derived constants are [nodeMax = 2^NodeBits - 1],
    [nodeMask = nodeMax << StepBits], [stepMask = 2^StepBits - 1],
    [timeShift = NodeBits + StepBits] and [nodeShift = StepBits]. *)
Theorem NewNodeWithConfig_contract (cfg : Config.t) :
  Config.wf cfg ->
  ((exists e, NewNodeWithConfig cfg = Err e) <->
   (Config.NodeBits cfg > 16 \/ Config.StepBits cfg > 16 \/
    Config.NodeBits cfg + Config.StepBits cfg > 22 \/
    Config.Node cfg < 0 \/ Config.Node cfg > 2 ^ Config.NodeBits cfg - 1)) /\
  (forall n, NewNodeWithConfig cfg = Ok n ->
             nodeMax n = 2 ^ Config.NodeBits cfg - 1 /\
             nodeMask n = Z.shiftl (nodeMax n) (Config.StepBits cfg) /\
             stepMask n = 2 ^ Config.StepBits cfg - 1 /\
             timeShift n = Config.NodeBits cfg + Config.StepBits cfg /\
             nodeShift n = Config.StepBits cfg /\
             node n = Config.Node cfg /\ time n = 0 /\ step n = 0).
Proof.
  intros Hwf. split.
  - destruct Hwf as [_ [Hnb [Hsb _]]]. unfold Uint8.in_range in *.
    unfold NewNodeWithConfig, MaxNodeBits, MaxStepBits, Uint8.add, Uint8.wrap.
    destruct (Config.NodeBits cfg >? 16) eqn:H1.
    { split; [intros _; lia | eauto]. }
    destruct (Config.StepBits cfg >? 16) eqn:H2.
    { split; [intros _; lia | eauto]. }
    rewrite Z.mod_small by lia.
    destruct (Config.NodeBits cfg + Config.StepBits cfg >? 22) eqn:H3.
    { split; [intros _; lia | eauto]. }
    rewrite !mask_of_bits by lia.
    destruct ((Config.Node cfg <? 0) || (Config.Node cfg >? _)) eqn:H4.
    { apply orb_true_iff in H4. split; [intros _; lia | eauto]. }
    apply orb_false_iff in H4. split.
    + intros [e He]. discriminate.
    + intros H. exfalso. lia.
  - intros n Hnew.
    destruct (NewNodeWithConfig_layout cfg n Hwf Hnew)
      as ((_ & _ & _ & L1 & L2 & L3 & L4 & L5 & _) & Hnode & Htime & Hstep).
    repeat split; assumption.
Qed.

Lemma NewNodeWithConfig_contract_witness :
  nodeMax scenario_node = 2 ^ 10 - 1 /\
  nodeMask scenario_node = Z.shiftl (nodeMax scenario_node) 12 /\
  stepMask scenario_node = 2 ^ 12 - 1 /\
  timeShift scenario_node = 10 + 12 /\
  nodeShift scenario_node = 12 /\
  node scenario_node = 5 /\ time scenario_node = 0 /\ step scenario_node = 0.
Proof.
  apply (proj2 (NewNodeWithConfig_contract scenario_config scenario_config_wf)
               scenario_node).
  exact scenario_node_new.
Defined.

(** ** Rejection of malformed input *)

Lemma parseBase32_loop_invalid (b : list byte) :
  Exists (fun c => ~ in_alphabet encodeBase32Map c) b ->
  forall id, parseBase32_loop b id = (0, Some ErrInvalidBase32).
Proof.
  induction 1 as [c rest Hc | c rest Hex IH]; intros id; cbn [parseBase32_loop].
  - apply decodeBase32Map_xFF in Hc. rewrite Hc.
    unfold byte_eqb. now rewrite Ascii.eqb_refl.
  - destruct (byte_eqb _ xFF); [reflexivity | apply IH].
Qed.

Lemma parseBase58_loop_invalid (b : list byte) :
  Exists (fun c => ~ in_alphabet encodeBase58Map c) b ->
  forall id, parseBase58_loop b id = (0, Some ErrInvalidBase58).
Proof.
  induction 1 as [c rest Hc | c rest Hex IH]; intros id; cbn [parseBase58_loop].
  - apply decodeBase58Map_xFF in Hc. rewrite Hc.
    unfold byte_eqb. now rewrite Ascii.eqb_refl.
  - destruct (byte_eqb _ xFF); [reflexivity | apply IH].
Qed.

(** A byte that is neither in the URL-safe alphabet nor a line break makes
    the base64 decoder fail, whatever it has decoded before. *)
Lemma decode_loop_invalid (src : list byte) :
  Exists (fun c => ~ in_alphabet base64.encodeURL c /\
                   c <> byte_of_Z 10 /\ c <> byte_of_Z 13) src ->
  forall si j dbuf dst,
  exists data pos,
    base64.decode_loop src si j dbuf dst = (data, Some (CorruptInputError pos)).
Proof.
  induction 1 as [c rest (Hc & Hlf & Hcr) | c rest Hex IH];
    intros si j dbuf dst; cbn [base64.decode_loop].
  - apply base64_decodeMap_xFF in Hc. rewrite Hc.
    unfold byte_eqb at 1. rewrite Ascii.eqb_refl. cbn [negb].
    apply Ascii.eqb_neq in Hlf, Hcr. unfold byte_eqb. rewrite Hlf, Hcr.
    cbn [orb]. eauto.
  - destruct (negb (byte_eqb _ xFF)).
    + destruct (j =? 3); apply IH.
    + destruct (_ || _); [apply IH | eauto].
Qed.

(** C9.  An input with a byte outside the alphabet makes [ParseBase32]
    and [ParseBase58] fail with their invalid-character error, the
    identifier returned with the error being 0 whatever was accumulated
    before the byte and whatever follows it; [ParseBase64] returns the
    error of the base64 decoder, with identifier 0, whenever the decoder
    fails, as it does on a byte that is neither in its alphabet nor a line
    break. *)
Theorem Parse_rejects_malformed (b : list byte) :
  (Exists (fun c => ~ in_alphabet encodeBase32Map c) b ->
   ParseBase32 b = (0, Some ErrInvalidBase32)) /\
  (Exists (fun c => ~ in_alphabet encodeBase58Map c) b ->
   ParseBase58 b = (0, Some ErrInvalidBase58)) /\
  (forall data e, base64.DecodeString (string_of b) = (data, Some e) ->
                  ParseBase64 b = (0, Some e)) /\
  (Exists (fun c => ~ in_alphabet base64.encodeURL c /\
                    c <> byte_of_Z 10 /\ c <> byte_of_Z 13) b ->
   exists pos, ParseBase64 b = (0, Some (CorruptInputError pos))).
Proof.
  split; [| split; [| split]].
  - intros H. apply parseBase32_loop_invalid. exact H.
  - intros H. apply parseBase58_loop_invalid. exact H.
  - intros data e H. unfold ParseBase64. rewrite H. reflexivity.
  - intros H. unfold ParseBase64, base64.DecodeString.
    rewrite bytes_of_string_of.
    destruct (decode_loop_invalid b H 0 0 [] []) as (data & pos & E).
    rewrite E. eauto.
Qed.

Lemma Parse_rejects_malformed_witness :
  ParseBase32 (bytes_of "7w0x") = (0, Some ErrInvalidBase32) /\
  ParseBase58 (bytes_of "7w0x") = (0, Some ErrInvalidBase58) /\
  ParseBase64 (bytes_of "A") = (0, Some (CorruptInputError 0)) /\
  exists pos, ParseBase64 (bytes_of "AA!A") = (0, Some (CorruptInputError pos)).
Proof.
  destruct (Parse_rejects_malformed (bytes_of "7w0x")) as (H32 & H58 & _ & _).
  destruct (Parse_rejects_malformed (bytes_of "A")) as (_ & _ & H64 & _).
  destruct (Parse_rejects_malformed (bytes_of "AA!A")) as (_ & _ & _ & H64').
  split; [| split; [| split]].
  - apply H32. apply Exists_cons_tl, Exists_cons_tl, Exists_cons_hd.
    rewrite <- decodeBase32Map_xFF. vm_compute. reflexivity.
  - apply H58. apply Exists_cons_tl, Exists_cons_tl, Exists_cons_hd.
    rewrite <- decodeBase58Map_xFF. vm_compute. reflexivity.
  - apply (H64 []). vm_compute. reflexivity.
  - apply H64'. apply Exists_cons_tl, Exists_cons_tl, Exists_cons_hd.
    split; [| split].
    + rewrite <- base64_decodeMap_xFF. vm_compute. reflexivity.
    + vm_compute. discriminate.
    + vm_compute. discriminate.
Defined.

(** ** Sign of the identifier in Base32 and Base58 *)

Lemma string_of_nonempty (b : list byte) : b <> [] -> string_of b <> EmptyString.
Proof. destruct b; [congruence | discriminate]. Qed.

(** C10.  A negative identifier is encoded as the empty string by [Base32]
    and [Base58], and the empty input parses to identifier 0 without error;
    a non-negative identifier is encoded as a non-empty string (the encoding
    loops are total functions: they terminate on every input). *)
Theorem Base32_Base58_by_sign (x : ID) :
  (x < 0 -> Base32 x = EmptyString /\ Base58 x = EmptyString) /\
  (0 <= x -> Base32 x <> EmptyString /\ Base58 x <> EmptyString) /\
  ParseBase32 (bytes_of EmptyString) = (0, None) /\
  ParseBase58 (bytes_of EmptyString) = (0, None).
Proof.
  split; [| split; [| split; reflexivity]].
  - intros Hx. unfold Base32, Base58.
    assert (H0 : (x =? 0) = false) by lia. rewrite H0.
    rewrite base32_loop_eq, base58_loop_eq.
    assert (H1 : (0 <? x) = false) by lia. rewrite H1. split; reflexivity.
  - intros Hx. unfold Base32, Base58.
    destruct (x =? 0) eqn:H0; [split; discriminate |].
    assert (Hpos : 0 < x) by lia.
    split; apply string_of_nonempty; intros E; apply (f_equal (@rev byte)) in E;
      rewrite rev_involutive in E; cbn [rev] in E.
    + rewrite base32_lsd in E. apply Z.ltb_lt in Hpos. rewrite Hpos in E.
      discriminate.
    + rewrite base58_lsd in E. apply Z.ltb_lt in Hpos. rewrite Hpos in E.
      discriminate.
Qed.

Lemma Base32_Base58_by_sign_witness :
  (Base32 (-1) = EmptyString /\ Base58 (-1) = EmptyString) /\
  (Base32 5 <> EmptyString /\ Base58 5 <> EmptyString).
Proof.
  split.
  - apply (proj1 (Base32_Base58_by_sign (-1))). lia.
  - apply (proj1 (proj2 (Base32_Base58_by_sign 5))). lia.
Defined.

(** ** Round trips *)

(** C1, as stated, fails: the Base32 and Base58 forms of a negative
    identifier are empty and parse back to 0. *)
Lemma roundtrip_fails_on_negative :
  Int64.in_range (-1) /\
  ParseBase32 (bytes_of (Base32 (-1))) = (0, None) /\
  ParseBase32 (bytes_of (Base32 (-1))) <> (-1, None) /\
  ParseBase58 (bytes_of (Base58 (-1))) <> (-1, None).
Proof.
  split; [unfold Int64.in_range, Int64.min_int, Int64.max_int; lia |].
  split; [vm_compute; reflexivity |].
  split; vm_compute; discriminate.
Qed.

(** C1, amended.  Parsing the Base64, decimal or binary form of any
    identifier, and the Base32 or Base58 form of a non-negative one, gives
    the identifier back. *)
Theorem encode_decode_roundtrip (x : ID) :
  Int64.in_range x ->
  (0 <= x -> ParseBase32 (bytes_of (Base32 x)) = (x, None)) /\
  (0 <= x -> ParseBase58 (bytes_of (Base58 x)) = (x, None)) /\
  ParseBase64 (bytes_of (Base64 x)) = (x, None) /\
  (forall f, UnmarshalJSON f (bytes_of (String_ x)) = (x, None)) /\
  ParseBase2 (Base2 x) = (x, None).
Proof.
  intros Hx. pose proof Hx as [Hlo Hhi].
  split; [| split; [| split; [| split]]].
  - intros H0. apply Base32_roundtrip. lia.
  - intros H0. apply Base58_roundtrip. lia.
  - apply Base64_roundtrip. exact Hx.
  - intros f. unfold UnmarshalJSON, String_.
    unfold string_of, bytes_of. rewrite string_of_list_ascii_of_string.
    rewrite ParseInt_FormatInt by (lia || exact Hx). reflexivity.
  - unfold ParseBase2, Base2.
    rewrite ParseInt_FormatInt by (lia || exact Hx). reflexivity.
Qed.

Lemma encode_decode_roundtrip_witness :
  ParseBase32 (bytes_of (Base32 1234567890123456789)) =
    (1234567890123456789, None) /\
  ParseBase58 (bytes_of (Base58 1234567890123456789)) =
    (1234567890123456789, None) /\
  ParseBase64 (bytes_of (Base64 (-5))) = (-5, None) /\
  UnmarshalJSON 0 (bytes_of (String_ (-5))) = (-5, None) /\
  ParseBase2 (Base2 (-5)) = (-5, None).
Proof.
  assert (H1 : Int64.in_range 1234567890123456789)
    by (unfold Int64.in_range, Int64.min_int, Int64.max_int; lia).
  assert (H2 : Int64.in_range (-5))
    by (unfold Int64.in_range, Int64.min_int, Int64.max_int; lia).
  destruct (encode_decode_roundtrip 1234567890123456789 H1)
    as (R32 & R58 & _).
  destruct (encode_decode_roundtrip (-5) H2) as (_ & _ & R64 & R10 & R2).
  split; [apply R32; lia |]. split; [apply R58; lia |].
  split; [exact R64 |]. split; [apply R10 | exact R2].
Defined.

(** ** The contracts at the scenario's generator *)

Lemma Generate_transition_witness :
  generate_spec scenario_node [7; 7] 29380608 (issued scenario_node 7 0) [7] /\
  exists id w', Generate (mkWorld scenario_node [7; 7]) = Some (id, w').
Proof.
  destruct (Generate_transition scenario_node [7; 7] scenario_node_ok)
    as [Hiff Hret].
  split.
  - apply Hiff. vm_compute. reflexivity.
  - apply Hret. constructor. cbn. lia.
Defined.

Lemma GenerateBatch_contract_witness :
  (exists skipped, [7; 9; 10] = skipped ++ 9 :: [10] /\
                   Forall (fun t => t <= 7) skipped) /\
  (exists r w',
      GenerateBatch 200 (mkWorld (issued scenario_node 7 4000) [7; 7; 9; 10]) =
      Some (r, w')) /\
  Z.of_nat (List.length [29380608; 29380609; 29380610]) = 3.
Proof.
  assert (Hok : node_ok (issued scenario_node 7 4000))
    by (apply node_ok_issued; [exact scenario_node_ok | cbn; lia]).
  destruct (GenerateBatch_contract (issued scenario_node 7 4000)
              [7; 7; 9; 10] 200 Hok ltac:(cbn; lia)) as (Hres & Hiff & _).
  split; [| split].
  - destruct (Hres (map (fun i => 37769216 + Z.of_nat i) (seq 0 200), None)
                   (mkWorld (issued scenario_node 9 200) [10])
                   ltac:(vm_compute; reflexivity))
      as (now & s & _ & _ & _ & _ & Hgen & _ & now0 & rest & Hclk & Hwait & _).
    injection Hclk as <- <-. injection Hgen as Hnow _.
    destruct (Hwait ltac:(cbn; lia)) as (_ & _ & Hsk).
    rewrite <- Hnow in Hsk. exact Hsk.
  - apply (proj2 Hiff). exists 7, [7; 9; 10]. split; [reflexivity |].
    right. right. apply Exists_cons_tl, Exists_cons_hd. cbn. lia.
  - destruct (GenerateBatch_contract scenario_node [7] 3 scenario_node_ok
                ltac:(cbn; lia)) as (Hres3 & _).
    destruct (Hres3 ([29380608; 29380609; 29380610], None)
                (mkWorld (issued scenario_node 7 3) [])
                ltac:(vm_compute; reflexivity))
      as (now & s & _ & Hlen & _).
    exact Hlen.
Defined.

Lemma GenerateBatch_argument_error_witness :
  (exists ids e w',
      GenerateBatch 0 (mkWorld scenario_node [7]) = Some ((ids, Some e), w')) /\
  (exists ids e w',
      GenerateBatch 4096 (mkWorld scenario_node [7]) =
      Some ((ids, Some e), w')).
Proof.
  split.
  - apply (proj1 (GenerateBatch_argument_error (mkWorld scenario_node [7]) 0)).
    left. lia.
  - apply (proj1 (GenerateBatch_argument_error
                    (mkWorld scenario_node [7]) 4096)).
    right. cbn. lia.
Defined.

Lemma extraction_inverts_packing_witness :
  NodeID 29380611 scenario_node = 5 /\ Step 29380611 scenario_node = 3.
Proof.
  destruct (extraction_inverts_packing scenario_config scenario_node
              scenario_config_wf scenario_node_new) as [Hpack _].
  destruct (Hpack 7 3 ltac:(cbn; lia)) as (_ & Hn & _ & Hs & _).
  split; [exact Hn | exact Hs].
Defined.

(** ** The state invariant along any execution *)

Lemma NewNodeWithConfig_node_ok (cfg : Config.t) (n : Node) :
  Config.wf cfg -> NewNodeWithConfig cfg = Ok n -> node_ok n.
Proof.
  intros Hwf Hnew.
  destruct (NewNodeWithConfig_layout cfg n Hwf Hnew) as (Hl & _ & _ & Hstep).
  split; [eauto |]. rewrite Hstep.
  destruct Hl as (_ & Hsb & _ & _ & _ & Hsm & _). rewrite Hsm.
  assert (0 < 2 ^ Config.StepBits cfg) by (apply Z.pow_pos_nonneg; lia). lia.
Qed.

Lemma Generate_node_ok (w w' : World) (id : ID) :
  node_ok (gen w) -> Generate w = Some (id, w') -> node_ok (gen w').
Proof.
  destruct w as [n clk]. cbn [gen]. intros Hok Hgen.
  destruct (Generate_issues n clk id w' Hok Hgen)
    as (now & s & sk & _ & Hw & Hs & _).
  rewrite Hw. now apply node_ok_issued.
Qed.

Lemma GenerateBatch_node_ok (w w' : World) (count : Z)
      (r : list ID * option error) :
  node_ok (gen w) -> GenerateBatch count w = Some (r, w') -> node_ok (gen w').
Proof.
  destruct w as [n clk]. cbn [gen]. intros Hok Hrun.
  destruct (Z_le_dec count 0) as [H0 | H0].
  { rewrite GenerateBatch_eq in Hrun.
    assert (E : (count <=? 0) = true) by lia. rewrite E in Hrun.
    injection Hrun as _ <-. exact Hok. }
  destruct (Z_gt_dec count (stepMask n)) as [H1 | H1].
  { rewrite GenerateBatch_eq in Hrun.
    assert (E0 : (count <=? 0) = false) by lia.
    assert (E1 : (count >? stepMask n) = true) by lia.
    rewrite E0, E1 in Hrun. injection Hrun as _ <-. exact Hok. }
  destruct (GenerateBatch_issues n clk count r w' Hok ltac:(lia) Hrun)
    as (now & s & clk' & Hstart & _ & ->).
  destruct (batch_start_spec n count clk now s clk' Hok ltac:(lia) Hstart)
    as (Hs0 & Hsk & _).
  cbn [gen]. apply node_ok_issued; [exact Hok | lia].
Qed.

Lemma run_calls_node_ok (cs : list call) :
  forall w ids w',
    node_ok (gen w) -> run_calls cs w = Some (ids, w') -> node_ok (gen w').
Proof.
  induction cs as [| c rest IH]; intros w ids w' Hok Hrun.
  - cbn in Hrun. injection Hrun as _ <-. exact Hok.
  - cbn [run_calls] in Hrun. unfold bind at 1 in Hrun.
    destruct (run_call c w) as [[ids1 w1] |] eqn:Hc; [| discriminate].
    unfold bind at 1 in Hrun.
    destruct (run_calls rest w1) as [[ids2 w2] |] eqn:Hr; [| discriminate].
    injection Hrun as _ <-.
    apply (IH w1 ids2 w2); [| exact Hr].
    destruct c as [| count]; cbn [run_call] in Hc; unfold bind in Hc.
    + destruct (Generate w) as [[id w1'] |] eqn:Hg; [| discriminate].
      injection Hc as _ <-. exact (Generate_node_ok w w1' id Hok Hg).
    + destruct (GenerateBatch count w) as [[r w1'] |] eqn:Hg; [| discriminate].
      injection Hc as _ <-. exact (GenerateBatch_node_ok w w1' count r Hok Hg).
Qed.

(** * Further properties of the code *)

(** ** Building a decode table *)

Lemma str_at_nth (s : string) (i : nat) :
  str_at s (Z.of_nat i) = nth i (bytes_of s) zero.
Proof.
  unfold str_at. rewrite Nat2Z.id. revert i.
  induction s as [| c s IH]; intros [| i]; cbn; try reflexivity. apply IH.
Qed.

Lemma length_bytes_of (s : string) : List.length (bytes_of s) = String.length s.
Proof.
  unfold bytes_of. induction s as [| c s IH]; cbn; [reflexivity | now rewrite IH].
Qed.

Lemma array_set_length (a : list byte) (i : nat) (v : byte) :
  List.length (array_set a i v) = List.length a.
Proof.
  revert i. induction a as [| x a IH]; intros [| i]; cbn; try reflexivity.
  now rewrite IH.
Qed.

Lemma array_set_nth (a : list byte) (i j : nat) (v : byte) :
  (i < List.length a)%nat ->
  nth j (array_set a i v) zero = if Nat.eqb j i then v else nth j a zero.
Proof.
  revert i j. induction a as [| x a IH]; intros i j Hi; cbn in Hi; [lia |].
  destruct i as [| i], j as [| j]; cbn; try reflexivity.
  apply IH. lia.
Qed.

Lemma nat_of_ascii_bound (c : byte) : (nat_of_ascii c < 256)%nat.
Proof. unfold nat_of_ascii. pose proof (N_ascii_bounded c). lia. Qed.

Lemma nat_of_ascii_inj (c d : byte) : nat_of_ascii c = nat_of_ascii d -> c = d.
Proof.
  intros H. rewrite <- (ascii_nat_embedding c), <- (ascii_nat_embedding d).
  now rewrite H.
Qed.

(** The table after the entries of the first [k] characters are written. *)
Lemma initDecodeMap_prefix (L : list byte) (k : nat) :
  let table :=
    fold_left (fun decodeMap i =>
                 array_set decodeMap (nat_of_ascii (nth i L zero))
                           (byte_of_Z (Z.of_nat i)))
              (seq 0 k) (repeat xFF 256) in
  List.length table = 256%nat /\
  (forall c, (forall j, (j < k)%nat -> nth j L zero <> c) ->
             array_get table c = xFF) /\
  (forall j, (j < k)%nat ->
             (forall j', (j < j' < k)%nat -> nth j' L zero <> nth j L zero) ->
             array_get table (nth j L zero) = byte_of_Z (Z.of_nat j)).
Proof.
  induction k as [| k IH]; cbv zeta.
  - cbn [seq fold_left]. split; [apply repeat_length |]. split.
    + intros c _. unfold array_get.
      apply (nth_repeat_lt xFF). apply nat_of_ascii_bound.
    + intros j Hj. lia.
  - cbv zeta in IH. destruct IH as (Hlen & Hout & Hin).
    rewrite seq_S, fold_left_app. cbn [fold_left Nat.add].
    split; [now rewrite array_set_length |]. split.
    + intros c Hc. unfold array_get.
      rewrite array_set_nth by (rewrite Hlen; apply nat_of_ascii_bound).
      destruct (Nat.eqb_spec (nat_of_ascii c) (nat_of_ascii (nth k L zero)))
        as [E | E].
      * apply nat_of_ascii_inj in E. exfalso. apply (Hc k); [lia | now symmetry].
      * apply Hout. intros j Hj. apply Hc. lia.
    + intros j Hj Hlast. unfold array_get.
      rewrite array_set_nth by (rewrite Hlen; apply nat_of_ascii_bound).
      destruct (Nat.eqb_spec (nat_of_ascii (nth j L zero))
                             (nat_of_ascii (nth k L zero))) as [E | E].
      * apply nat_of_ascii_inj in E.
        destruct (Nat.eq_dec j k) as [-> | Hne]; [reflexivity |].
        exfalso. apply (Hlast k); [lia | now symmetry].
      * assert (Hjk : (j < k)%nat).
        { destruct (Nat.eq_dec j k) as [-> | Hne]; [congruence | lia]. }
        apply Hin; [exact Hjk |]. intros j' Hj'. apply Hlast. lia.
Qed.

Lemma fold_left_pointwise (A B : Type) (f g : A -> B -> A) (l : list B) :
  (forall a b, f a b = g a b) ->
  forall a, fold_left f l a = fold_left g l a.
Proof.
  intros H. induction l as [| b l IH]; intros a; cbn; [reflexivity |].
  now rewrite H, IH.
Qed.

Lemma initDecodeMap_fold (encodeMap : string) :
  initDecodeMap encodeMap =
  fold_left (fun decodeMap i =>
               array_set decodeMap
                         (nat_of_ascii (nth i (bytes_of encodeMap) zero))
                         (byte_of_Z (Z.of_nat i)))
            (seq 0 (List.length (bytes_of encodeMap))) (repeat xFF 256).
Proof.
  unfold initDecodeMap. rewrite length_bytes_of.
  apply fold_left_pointwise. intros tbl i. now rewrite str_at_nth.
Qed.

(** X1.  [initDecodeMap] builds, for any alphabet, a table of 256 entries
    that holds 0xFF at every byte outside the alphabet and, when no
    character occurs twice, the index of each character at that character. *)
Theorem initDecodeMap_inverts (encodeMap : string) :
  List.length (initDecodeMap encodeMap) = 256%nat /\
  (forall c, ~ in_alphabet encodeMap c ->
             array_get (initDecodeMap encodeMap) c = xFF) /\
  (NoDup (bytes_of encodeMap) ->
   forall i, 0 <= i < str_len encodeMap ->
             array_get (initDecodeMap encodeMap) (str_at encodeMap i) =
             byte_of_Z i).
Proof.
  rewrite initDecodeMap_fold.
  destruct (initDecodeMap_prefix (bytes_of encodeMap)
              (List.length (bytes_of encodeMap))) as (Hlen & Hout & Hin).
  split; [exact Hlen |]. split.
  - intros c Hc. apply Hout. intros j Hj E. apply Hc.
    unfold in_alphabet. rewrite <- E. now apply nth_In.
  - intros Hnd i Hi. unfold str_len in Hi. rewrite <- length_bytes_of in Hi.
    rewrite <- (Z2Nat.id i) by lia. rewrite str_at_nth.
    apply Hin; [lia |]. intros j' Hj' E.
    rewrite NoDup_nth in Hnd. specialize (Hnd j' (Z.to_nat i)).
    assert (j' = Z.to_nat i) by (apply Hnd; [lia | lia | exact E]). lia.
Qed.

Lemma initDecodeMap_inverts_witness :
  array_get (initDecodeMap encodeBase58Map) (str_at encodeBase58Map 57) =
  byte_of_Z 57.
Proof.
  apply (proj2 (proj2 (initDecodeMap_inverts encodeBase58Map))).
  - unfold encodeBase58Map, bytes_of. cbn [list_ascii_of_string].
    repeat (constructor; [cbn; intuition discriminate |]). constructor.
  - cbn. lia.
Defined.

(** ** Parsing Base32 and Base58: failure and value *)

Lemma wrap_shift (a : Z) : exists k, Int64.wrap a = a + k * 2 ^ 64.
Proof.
  exists (- ((a + 2 ^ 63) / 2 ^ 64)). unfold Int64.wrap.
  rewrite Z.mod_eq by lia. ring.
Qed.

Lemma wrap_congr (a b : Z) :
  a mod 2 ^ 64 = b mod 2 ^ 64 -> Int64.wrap a = Int64.wrap b.
Proof.
  intros H. unfold Int64.wrap.
  rewrite <- (Z.add_mod_idemp_l a), H, Z.add_mod_idemp_l by lia. reflexivity.
Qed.

(** One step of a parsing loop keeps only the residue of the accumulator. *)
Lemma parse_step_wrap (x r d : Z) :
  Int64.add (Int64.mul (Int64.wrap x) r) d = Int64.wrap (x * r + d).
Proof.
  unfold Int64.add, Int64.mul.
  destruct (wrap_shift x) as [k Hk].
  destruct (wrap_shift (Int64.wrap x * r)) as [k' Hk'].
  apply wrap_congr. rewrite Hk', Hk.
  replace ((x + k * 2 ^ 64) * r + k' * 2 ^ 64 + d)
    with (x * r + d + (k * r + k') * 2 ^ 64) by ring.
  apply Z.mod_add. lia.
Qed.

Lemma in_alphabet_dec (alphabet : string) (c : byte) :
  {in_alphabet alphabet c} + {~ in_alphabet alphabet c}.
Proof. apply in_dec. apply ascii_dec. Qed.

Lemma alphabet_or_not (alphabet : string) (b : list byte) :
  Forall (in_alphabet alphabet) b \/
  Exists (fun c => ~ in_alphabet alphabet c) b.
Proof.
  destruct (Forall_Exists_dec (in_alphabet alphabet)
                              (in_alphabet_dec alphabet) b); auto.
Qed.

Lemma parseBase32_loop_value (b : list byte) :
  Forall (in_alphabet encodeBase32Map) b ->
  forall x,
    parseBase32_loop b (Int64.wrap x) =
    (Int64.wrap (fold_left (fun a d => a * 32 + d) (map digit32 b) x), None).
Proof.
  induction 1 as [| c rest Hc Hrest IH]; intros x; [reflexivity |].
  cbn [parseBase32_loop map fold_left].
  destruct (byte_eqb (array_get decodeBase32Map c) xFF) eqn:E.
  - apply Ascii.eqb_eq in E. apply decodeBase32Map_xFF in E. contradiction.
  - rewrite parse_step_wrap. apply IH.
Qed.

Lemma parseBase58_loop_value (b : list byte) :
  Forall (in_alphabet encodeBase58Map) b ->
  forall x,
    parseBase58_loop b (Int64.wrap x) =
    (Int64.wrap (fold_left (fun a d => a * 58 + d) (map digit58 b) x), None).
Proof.
  induction 1 as [| c rest Hc Hrest IH]; intros x; [reflexivity |].
  cbn [parseBase58_loop map fold_left].
  destruct (byte_eqb (array_get decodeBase58Map c) xFF) eqn:E.
  - apply Ascii.eqb_eq in E. apply decodeBase58Map_xFF in E. contradiction.
  - rewrite parse_step_wrap. apply IH.
Qed.

(** X2.  [ParseBase32] and [ParseBase58] fail exactly on the inputs that
    hold a byte outside the alphabet; no other input, however long, makes
    them fail. *)
Theorem Parse_fails_iff_invalid_byte (b : list byte) :
  ((exists id e, ParseBase32 b = (id, Some e)) <->
   Exists (fun c => ~ in_alphabet encodeBase32Map c) b) /\
  ((exists id e, ParseBase58 b = (id, Some e)) <->
   Exists (fun c => ~ in_alphabet encodeBase58Map c) b).
Proof.
  split; split.
  - intros (id & e & H).
    destruct (alphabet_or_not encodeBase32Map b) as [Hall | Hex]; [| exact Hex].
    unfold ParseBase32 in H. change 0 with (Int64.wrap 0) in H.
    rewrite (parseBase32_loop_value b Hall 0) in H. discriminate.
  - intros Hex. unfold ParseBase32.
    rewrite (parseBase32_loop_invalid b Hex). eauto.
  - intros (id & e & H).
    destruct (alphabet_or_not encodeBase58Map b) as [Hall | Hex]; [| exact Hex].
    unfold ParseBase58 in H. change 0 with (Int64.wrap 0) in H.
    rewrite (parseBase58_loop_value b Hall 0) in H. discriminate.
  - intros Hex. unfold ParseBase58.
    rewrite (parseBase58_loop_invalid b Hex). eauto.
Qed.

Lemma Parse_fails_iff_invalid_byte_witness :
  exists id e, ParseBase58 (bytes_of "l0") = (id, Some e).
Proof.
  apply (proj2 (Parse_fails_iff_invalid_byte (bytes_of "l0"))).
  apply Exists_cons_hd. rewrite <- decodeBase58Map_xFF.
  vm_compute. reflexivity.
Defined.

(** X3.  On an input of alphabet characters only, [ParseBase32] and
    [ParseBase58] return the number the digits denote in radix 32 or 58,
    reduced to 64 signed bits: an input too long for an [int64] wraps
    around and is not reported. *)
Theorem Parse_value_wraps (b : list byte) :
  (Forall (in_alphabet encodeBase32Map) b ->
   ParseBase32 b =
   (Int64.wrap (positional_value 32 (map digit32 b)), None)) /\
  (Forall (in_alphabet encodeBase58Map) b ->
   ParseBase58 b =
   (Int64.wrap (positional_value 58 (map digit58 b)), None)).
Proof.
  split; intros Hall.
  - unfold ParseBase32, positional_value. change 0 with (Int64.wrap 0) at 1.
    apply parseBase32_loop_value. exact Hall.
  - unfold ParseBase58, positional_value. change 0 with (Int64.wrap 0) at 1.
    apply parseBase58_loop_value. exact Hall.
Qed.

Lemma Parse_value_wraps_witness :
  ParseBase32 (bytes_of "w7777777777777") =
  (Int64.wrap (positional_value 32
                 (map digit32 (bytes_of "w7777777777777"))), None) /\
  positional_value 32 (map digit32 (bytes_of "w7777777777777")) = 2 ^ 65 /\
  Int64.wrap (2 ^ 65) = 0.
Proof.
  split; [| split; vm_compute; reflexivity].
  apply (proj1 (Parse_value_wraps (bytes_of "w7777777777777"))).
  rewrite Forall_forall. intros c Hc.
  destruct (in_alphabet_dec encodeBase32Map c) as [H | H]; [exact H |].
  exfalso. apply decodeBase32Map_xFF in H.
  cbn in Hc. repeat (destruct Hc as [<- | Hc]; [vm_compute in H; discriminate |]).
  exact Hc.
Defined.

(** X4.  A leading zero digit does not change what is parsed: the parsers
    accept forms that the encoders never produce, so encoding a parsed
    string need not give the string back. *)
Theorem Parse_ignores_leading_zero_digit (b : list byte) :
  ParseBase32 ("7"%char :: b) = ParseBase32 b /\
  ParseBase58 ("1"%char :: b) = ParseBase58 b.
Proof.
  split.
  - unfold ParseBase32.
    apply (parseBase32_digit 0 0 b); unfold Int64.max_int; lia.
  - unfold ParseBase58.
    apply (parseBase58_digit 0 0 b); unfold Int64.max_int; lia.
Qed.

(** ** What the encoders emit *)

Lemma str_at_in_alphabet (s : string) (i : Z) :
  0 <= i < str_len s -> in_alphabet s (str_at s i).
Proof.
  intros Hi. unfold str_len in Hi. rewrite <- length_bytes_of in Hi.
  rewrite <- (Z2Nat.id i) by lia. rewrite str_at_nth.
  apply nth_In. lia.
Qed.

Lemma base32_loop_alphabet (f : Z) :
  Forall (in_alphabet encodeBase32Map) (base32_loop f []).
Proof.
  induction f as [f IH] using bitlen_ind.
  rewrite base32_lsd. destruct (0 <? f) eqn:Hf; [| constructor].
  apply Z.ltb_lt in Hf. constructor.
  - apply str_at_in_alphabet. change (str_len encodeBase32Map) with 32.
    apply Z.mod_pos_bound. lia.
  - apply IH. rewrite <- Z.quot_div_nonneg by lia. apply bitlen_quot; lia.
Qed.

Lemma base58_loop_alphabet (f : Z) :
  Forall (in_alphabet encodeBase58Map) (base58_loop f []).
Proof.
  induction f as [f IH] using bitlen_ind.
  rewrite base58_lsd. destruct (0 <? f) eqn:Hf; [| constructor].
  apply Z.ltb_lt in Hf. constructor.
  - apply str_at_in_alphabet. change (str_len encodeBase58Map) with 58.
    apply Z.mod_pos_bound. lia.
  - apply IH. rewrite <- Z.quot_div_nonneg by lia. apply bitlen_quot; lia.
Qed.

Lemma encode_in_alphabet (v : Z) : in_alphabet base64.encodeURL (base64.encode v).
Proof.
  unfold base64.encode. apply str_at_in_alphabet.
  change (str_len base64.encodeURL) with 64.
  rewrite land63. apply Z.mod_pos_bound. lia.
Qed.

Lemma EncodeToString_alphabet (src : list byte) :
  Forall (in_alphabet base64.encodeURL) (bytes_of (base64.EncodeToString src)).
Proof.
  induction src as [| b0 | b0 b1 | b0 b1 b2 rest IH] using list_ind3;
    cbn [base64.EncodeToString bytes_of list_ascii_of_string];
    repeat (constructor; [apply encode_in_alphabet |]);
    [constructor | constructor | constructor | exact IH].
Qed.

(** X5.  Every character that [Base32], [Base58] and [Base64] emit belongs
    to the respective alphabet, for every identifier, so that parsing an
    encoder's output never fails, also where it does not give the
    identifier back. *)
Theorem encoders_emit_alphabet (x : ID) :
  Forall (in_alphabet encodeBase32Map) (bytes_of (Base32 x)) /\
  Forall (in_alphabet encodeBase58Map) (bytes_of (Base58 x)) /\
  Forall (in_alphabet base64.encodeURL) (bytes_of (Base64 x)) /\
  snd (ParseBase32 (bytes_of (Base32 x))) = None /\
  snd (ParseBase58 (bytes_of (Base58 x))) = None.
Proof.
  assert (H32 : Forall (in_alphabet encodeBase32Map) (bytes_of (Base32 x))).
  { unfold Base32. destruct (x =? 0).
    - rewrite bytes_of_string_of. constructor; [| constructor].
      apply str_at_in_alphabet. cbn. lia.
    - rewrite bytes_of_string_of. apply Forall_rev, base32_loop_alphabet. }
  assert (H58 : Forall (in_alphabet encodeBase58Map) (bytes_of (Base58 x))).
  { unfold Base58. destruct (x =? 0).
    - rewrite bytes_of_string_of. constructor; [| constructor].
      apply str_at_in_alphabet. cbn. lia.
    - rewrite bytes_of_string_of. apply Forall_rev, base58_loop_alphabet. }
  split; [exact H32 |]. split; [exact H58 |].
  split; [apply EncodeToString_alphabet |]. split.
  - unfold ParseBase32. change 0 with (Int64.wrap 0).
    now rewrite (parseBase32_loop_value _ H32 0).
  - unfold ParseBase58. change 0 with (Int64.wrap 0).
    now rewrite (parseBase58_loop_value _ H58 0).
Qed.

(** ** Lengths of the encodings *)

Section PositionalLength.

Variable radix : Z.
Variable enc : Z -> byte.
Variable loop : Z -> list byte.

Hypothesis radix_ge_2 : 2 <= radix.

Hypothesis loop_eq : forall f,
    loop f = if 0 <? f then enc (f mod radix) :: loop (f / radix) else [].

Lemma loop_length_le (k : nat) :
  forall x, x < radix ^ Z.of_nat k -> (List.length (loop x) <= k)%nat.
Proof.
  induction k as [| k IH]; intros x Hx; rewrite loop_eq.
  - cbn in Hx. assert (E : (0 <? x) = false) by lia. rewrite E. cbn. lia.
  - destruct (0 <? x) eqn:E; [| cbn; lia].
    cbn [List.length]. apply le_n_S, IH.
    apply Z.div_lt_upper_bound; [lia |].
    rewrite Nat2Z.inj_succ, Z.pow_succ_r in Hx by lia. lia.
Qed.

Lemma loop_length_gt (k : nat) :
  forall x, radix ^ Z.of_nat k <= x -> (k < List.length (loop x))%nat.
Proof.
  induction k as [| k IH]; intros x Hx; rewrite loop_eq.
  - cbn in Hx. assert (E : (0 <? x) = true) by lia. rewrite E. cbn. lia.
  - assert (Hp : 0 < radix ^ Z.of_nat k) by (apply Z.pow_pos_nonneg; lia).
    rewrite Nat2Z.inj_succ, Z.pow_succ_r in Hx by lia.
    assert (E : (0 <? x) = true) by nia. rewrite E.
    cbn [List.length]. apply -> Nat.succ_lt_mono. apply IH.
    apply Z.div_le_lower_bound; lia.
Qed.

End PositionalLength.

Lemma length_string_of (b : list byte) :
  String.length (string_of b) = List.length b.
Proof.
  unfold string_of. induction b as [| c b IH]; cbn; [reflexivity | now rewrite IH].
Qed.

Lemma EncodeToString_length (src : list byte) :
  (3 * String.length (base64.EncodeToString src) <= 4 * List.length src + 2)%nat.
Proof.
  induction src as [| b0 | b0 b1 | b0 b1 b2 rest IH] using list_ind3;
    cbn [base64.EncodeToString String.length List.length]; lia.
Qed.

Lemma trim_leading_zeros_length (data : list byte) :
  (List.length (trim_leading_zeros data) <= List.length data)%nat.
Proof.
  induction data as [| c rest IH]; cbn [trim_leading_zeros]; [lia |].
  destruct (byte_eqb c zero); cbn [List.length] in *; lia.
Qed.

(** X6.  The Base58 form of a 64-bit identifier has at most 11 characters,
    the capacity its buffer is allocated with; the Base32 form has at most
    13 and exceeds the 12 its buffer is allocated with exactly from 2^60
    on; the Base64 form has at most 11. *)
Theorem encoding_lengths (x : ID) :
  Int64.in_range x ->
  (String.length (Base58 x) <= 11)%nat /\
  (String.length (Base32 x) <= 13)%nat /\
  (x < 2 ^ 60 -> (String.length (Base32 x) <= 12)%nat) /\
  (2 ^ 60 <= x -> String.length (Base32 x) = 13%nat) /\
  (String.length (Base64 x) <= 11)%nat.
Proof.
  intros [Hlo Hhi]. unfold Int64.max_int in Hhi.
  assert (L32 : forall k, x < 32 ^ Z.of_nat k ->
                          (String.length (Base32 x) <= Nat.max 1 k)%nat).
  { intros k Hk. unfold Base32.
    destruct (x =? 0); [rewrite length_string_of; cbn [List.length]; lia |].
    rewrite length_string_of, length_rev.
    pose proof (loop_length_le 32 (str_at encodeBase32Map)
                  (fun f => base32_loop f []) ltac:(lia) base32_lsd k x Hk).
    cbv beta in *. lia. }
  assert (L58 : (String.length (Base58 x) <= 11)%nat).
  { unfold Base58.
    destruct (x =? 0); [rewrite length_string_of; cbn [List.length]; lia |].
    rewrite length_string_of, length_rev.
    apply (loop_length_le 58 (str_at encodeBase58Map)
                  (fun f => base58_loop f []) ltac:(lia) base58_lsd 11 x).
    change (58 ^ Z.of_nat 11) with 24986644000165537792. lia. }
  split; [exact L58 |]. split; [| split; [| split]].
  - apply (L32 13%nat). change (32 ^ Z.of_nat 13) with (2 ^ 65). lia.
  - intros H. apply (L32 12%nat). change (32 ^ Z.of_nat 12) with (2 ^ 60). exact H.
  - intros H.
    pose proof (L32 13%nat ltac:(change (32 ^ Z.of_nat 13) with (2 ^ 65); lia)).
    assert ((12 < String.length (Base32 x))%nat); [| lia].
    unfold Base32. assert (E : (x =? 0) = false) by lia. rewrite E.
    rewrite length_string_of, length_rev.
    apply (loop_length_gt 32 (str_at encodeBase32Map)
             (fun f => base32_loop f []) ltac:(lia) base32_lsd 12 x).
    change (32 ^ Z.of_nat 12) with (2 ^ 60). exact H.
  - unfold Base64.
    pose proof (EncodeToString_length
                  (trim_leading_zeros (PutUint64 (Uint64.of_int64 x)))).
    pose proof (trim_leading_zeros_length (PutUint64 (Uint64.of_int64 x))).
    cbn [PutUint64 List.length] in *. lia.
Qed.

Lemma encoding_lengths_witness :
  String.length (Base32 (2 ^ 60)) = 13%nat /\
  (String.length (Base58 (2 ^ 63 - 1)%Z) <= 11)%nat.
Proof.
  split.
  - apply (encoding_lengths (2 ^ 60)).
    + unfold Int64.in_range, Int64.min_int, Int64.max_int. lia.
    + lia.
  - apply (encoding_lengths (2 ^ 63 - 1)).
    unfold Int64.in_range, Int64.min_int, Int64.max_int. lia.
Defined.

(** ** The byte forms *)

Lemma EncodeToString_empty (src : list byte) :
  base64.EncodeToString src = EmptyString -> src = [].
Proof.
  destruct src as [| b0 [| b1 [| b2 rest]]]; cbn; [reflexivity | | |];
    discriminate.
Qed.

(** X7.  [Base64] encodes the identifier 0, and no other, as the empty
    string. *)
Theorem Base64_empty_iff_zero (x : ID) :
  Int64.in_range x -> (Base64 x = EmptyString <-> x = 0).
Proof.
  intros Hx. split.
  - intros H. unfold Base64 in H. apply EncodeToString_empty in H.
    assert (Hu : 0 <= Uint64.of_int64 x < 2 ^ 64)
      by (unfold Uint64.of_int64, Uint64.wrap; apply Z.mod_pos_bound; lia).
    pose proof (fold_PutUint64 _ Hu) as Hf.
    rewrite <- fold_trim_leading_zeros, H in Hf. cbn [fold_left] in Hf.
    rewrite <- (to_int64_of_int64 x Hx), <- Hf. reflexivity.
  - intros ->. reflexivity.
Qed.

Lemma Base64_empty_iff_zero_witness : Base64 0 = EmptyString.
Proof.
  apply (Base64_empty_iff_zero 0).
  - unfold Int64.in_range, Int64.min_int, Int64.max_int. lia.
  - reflexivity.
Defined.

(** X8.  [Bytes] gives eight bytes from which the identifier can be read
    back: two identifiers with the same bytes are equal, and the untrimmed
    bytes, base64-encoded, parse back to the identifier like the trimmed
    ones that [Base64] encodes. *)
Theorem Bytes_determine_identifier (x : ID) :
  Int64.in_range x ->
  List.length (Bytes x) = 8%nat /\
  (forall y, Int64.in_range y -> Bytes x = Bytes y -> x = y) /\
  ParseBase64 (bytes_of (base64.EncodeToString (Bytes x))) = (x, None).
Proof.
  intros Hx.
  assert (Hu : forall z, 0 <= Uint64.of_int64 z < 2 ^ 64)
    by (intros z; unfold Uint64.of_int64, Uint64.wrap;
        apply Z.mod_pos_bound; lia).
  split; [reflexivity |]. split.
  - intros y Hy E. unfold Bytes in E.
    rewrite <- (to_int64_of_int64 x Hx), <- (to_int64_of_int64 y Hy).
    rewrite <- (fold_PutUint64 _ (Hu x)), <- (fold_PutUint64 _ (Hu y)).
    now rewrite E.
  - unfold ParseBase64, Bytes.
    unfold string_of, bytes_of at 1. rewrite string_of_list_ascii_of_string.
    rewrite DecodeString_EncodeToString, fold_PutUint64 by apply Hu.
    now rewrite to_int64_of_int64.
Qed.

Lemma Bytes_determine_identifier_witness :
  ParseBase64 (bytes_of (base64.EncodeToString (Bytes 5))) = (5, None).
Proof.
  apply (Bytes_determine_identifier 5).
  unfold Int64.in_range, Int64.min_int, Int64.max_int. lia.
Defined.

(** X9.  No two identifiers share a Base64, decimal or binary form, and no
    two non-negative identifiers share a Base32 or Base58 form. *)
Theorem encodings_injective (x y : ID) :
  Int64.in_range x -> Int64.in_range y ->
  (Base64 x = Base64 y -> x = y) /\
  (String_ x = String_ y -> x = y) /\
  (Base2 x = Base2 y -> x = y) /\
  (0 <= x -> 0 <= y -> Base32 x = Base32 y -> x = y) /\
  (0 <= x -> 0 <= y -> Base58 x = Base58 y -> x = y).
Proof.
  intros Hx Hy. pose proof Hx as [_ Hxh]. pose proof Hy as [_ Hyh].
  split; [| split; [| split; [| split]]].
  - intros E. pose proof (Base64_roundtrip x Hx) as Rx.
    rewrite E, (Base64_roundtrip y Hy) in Rx. congruence.
  - intros E. unfold String_ in E.
    pose proof (ParseInt_FormatInt 10 x ltac:(lia) Hx) as Rx.
    rewrite E, (ParseInt_FormatInt 10 y ltac:(lia) Hy) in Rx. congruence.
  - intros E. unfold Base2 in E.
    pose proof (ParseInt_FormatInt 2 x ltac:(lia) Hx) as Rx.
    rewrite E, (ParseInt_FormatInt 2 y ltac:(lia) Hy) in Rx. congruence.
  - intros Hx0 Hy0 E. pose proof (Base32_roundtrip x ltac:(lia)) as Rx.
    rewrite E, (Base32_roundtrip y ltac:(lia)) in Rx. congruence.
  - intros Hx0 Hy0 E. pose proof (Base58_roundtrip x ltac:(lia)) as Rx.
    rewrite E, (Base58_roundtrip y ltac:(lia)) in Rx. congruence.
Qed.

Lemma encodings_injective_witness :
  Base32 5 = Base32 (2 + 3) /\ 5 = 2 + 3.
Proof.
  assert (H : Int64.in_range 5)
    by (unfold Int64.in_range, Int64.min_int, Int64.max_int; lia).
  assert (E : Base32 5 = Base32 (2 + 3)) by reflexivity.
  split; [exact E |].
  exact (proj1 (proj2 (proj2 (proj2 (encodings_injective 5 (2 + 3) H H))))
               ltac:(lia) ltac:(lia) E).
Defined.

(** ** The generator along a sequence of calls *)

Lemma same_generator_refl (n : Node) : same_generator n n.
Proof. repeat split. Qed.

Lemma same_generator_trans (n1 n2 n3 : Node) :
  same_generator n1 n2 -> same_generator n2 n3 -> same_generator n1 n3.
Proof.
  unfold same_generator. intros (A1 & A2 & A3 & A4 & A5 & A6)
                                (B1 & B2 & B3 & B4 & B5 & B6).
  repeat split; congruence.
Qed.

Lemma fields_same_generator (n n' : Node) (id : ID) :
  same_generator n n' ->
  NodeID id n' = NodeID id n /\ Step id n' = Step id n /\
  TimeOffset id n' = TimeOffset id n.
Proof.
  intros (_ & _ & S3 & S4 & S5 & S6). unfold NodeID, Step, TimeOffset.
  now rewrite S3, S4, S5, S6.
Qed.

(** The fields of the identifiers one call issues. *)
Lemma run_call_fields (c : call) (n : Node) (clk : list Z) (ids : list ID)
      (w' : World) :
  node_ok n -> run_call c (mkWorld n clk) = Some (ids, w') ->
  node_ok (gen w') /\ same_generator n (gen w') /\
  Forall (fun id => NodeID id n = node n /\ 0 <= Step id n <= stepMask n) ids.
Proof.
  intros Hok Hrun. pose proof Hok as [(nb & sb & Hl) Hst].
  destruct c as [| count]; cbn [run_call] in Hrun; unfold bind, ret in Hrun.
  - destruct (Generate (mkWorld n clk)) as [[id w1] |] eqn:Hg; [| discriminate].
    injection Hrun as <- <-.
    destruct (Generate_issues n clk id w1 Hok Hg)
      as (now & s & sk & Hid & Hw & Hs & _).
    rewrite Hw. split; [now apply node_ok_issued |].
    split; [apply same_generator_issued |].
    constructor; [| constructor]. rewrite Hid.
    destruct (pack_fields (issued n now s) nb sb now
                (layout_issued n nb sb now s Hl) Hs) as (F1 & F2 & _).
    unfold Step, NodeID in *.
    cbn [issued stepMask nodeMask nodeShift step node] in F1, F2.
    rewrite F1, F2. split; [reflexivity | exact Hs].
  - destruct (GenerateBatch count (mkWorld n clk)) as [[r w1] |] eqn:Hg;
      [| discriminate].
    injection Hrun as <- <-.
    rewrite GenerateBatch_eq in Hg.
    destruct (count <=? 0) eqn:H0.
    { injection Hg as <- <-. cbn [gen fst].
      split; [exact Hok |]. split; [apply same_generator_refl | constructor]. }
    destruct (count >? stepMask n) eqn:H1.
    { injection Hg as <- <-. cbn [gen fst].
      split; [exact Hok |]. split; [apply same_generator_refl | constructor]. }
    assert (Hk : 1 <= count <= stepMask n) by lia.
    assert (Hg' : GenerateBatch count (mkWorld n clk) = Some (r, w1))
      by (rewrite GenerateBatch_eq, H0, H1; exact Hg).
    destruct (GenerateBatch_issues n clk count r w1 Hok Hk Hg')
      as (now & s & clk' & Hstart & -> & ->).
    destruct (batch_start_spec n count clk now s clk' Hok Hk Hstart)
      as (Hs0 & Hsk & _).
    cbn [gen fst]. split; [apply node_ok_issued; [exact Hok | lia] |].
    split; [apply same_generator_issued |].
    rewrite Forall_map, Forall_forall. intros i Hi. apply in_seq in Hi.
    assert (Hsi : 0 <= s + Z.of_nat i <= stepMask n) by lia.
    destruct (pack_fields (issued n now (s + Z.of_nat i)) nb sb now
                (layout_issued n nb sb now _ Hl) Hsi) as (F1 & F2 & _).
    unfold Step, NodeID in *.
    cbn [issued stepMask nodeMask nodeShift step node] in F1, F2.
    rewrite F1, F2. split; [reflexivity | exact Hsi].
Qed.

Lemma run_calls_fields (cs : list call) :
  forall n clk ids w',
    node_ok n -> run_calls cs (mkWorld n clk) = Some (ids, w') ->
    node_ok (gen w') /\ same_generator n (gen w') /\
    Forall (fun id => NodeID id n = node n /\ 0 <= Step id n <= stepMask n)
           ids.
Proof.
  induction cs as [| c rest IH]; intros n clk ids w' Hok Hrun.
  - cbn in Hrun. injection Hrun as <- <-. cbn.
    split; [exact Hok |]. split; [apply same_generator_refl | constructor].
  - cbn [run_calls] in Hrun. unfold bind at 1 in Hrun.
    destruct (run_call c (mkWorld n clk)) as [[ids1 [n1 clk1]] |] eqn:Hc;
      [| discriminate].
    unfold bind at 1 in Hrun.
    destruct (run_calls rest (mkWorld n1 clk1)) as [[ids2 w2] |] eqn:Hr;
      [| discriminate].
    injection Hrun as <- <-.
    destruct (run_call_fields c n clk ids1 _ Hok Hc) as (Hok1 & Hs1 & F1).
    cbn [gen] in *.
    destruct (IH n1 clk1 ids2 w2 Hok1 Hr) as (Hok2 & Hs2 & F2).
    split; [exact Hok2 |].
    split; [exact (same_generator_trans _ _ _ Hs1 Hs2) |].
    apply Forall_app. split; [exact F1 |].
    eapply Forall_impl; [| exact F2]. cbv beta. intros id.
    destruct (fields_same_generator n n1 id Hs1) as (E1 & E2 & _).
    destruct Hs1 as (S1 & _ & _ & S4 & _).
    rewrite E1, E2, S1, S4. auto.
Qed.

(** X10.  Whatever calls are made on a generator that was constructed from
    a configuration, and whatever the clock shows, the generator stays in a
    valid state with its layout unchanged, and every identifier issued, by
    [Generate] or in a batch, carries the configured node and a step within
    the mask. *)
Theorem calls_keep_generator_valid (cfg : Config.t) (n : Node)
        (cs : list call) (clk : list Z) (ids : list ID) (w' : World) :
  Config.wf cfg -> NewNodeWithConfig cfg = Ok n ->
  run_calls cs (mkWorld n clk) = Some (ids, w') ->
  node_ok (gen w') /\ same_generator n (gen w') /\
  Forall (fun id => NodeID id n = Config.Node cfg /\
                    0 <= Step id n <= stepMask n) ids.
Proof.
  intros Hwf Hnew Hrun.
  pose proof (NewNodeWithConfig_node_ok cfg n Hwf Hnew) as Hok.
  destruct (NewNodeWithConfig_layout cfg n Hwf Hnew) as (_ & Hnode & _).
  rewrite <- Hnode. exact (run_calls_fields cs n clk ids w' Hok Hrun).
Qed.

Lemma calls_keep_generator_valid_witness :
  Forall (fun id => NodeID id scenario_node = 5 /\
                    0 <= Step id scenario_node <= 4095)
         [29380608; 29380608; 29380609; 33574912].
Proof.
  apply (calls_keep_generator_valid scenario_config scenario_node
           [CallGenerate; CallGenerateBatch 2; CallGenerate] [7; 7; 8]
           [29380608; 29380608; 29380609; 33574912]
           (mkWorld (issued scenario_node 8 0) [])).
  - exact scenario_config_wf.
  - exact scenario_node_new.
  - vm_compute. reflexivity.
Defined.

(** ** Order of the identifiers issued by any calls *)

Lemma batch_start_clock (n : Node) (k : Z) (clk : list Z) (now s : Z)
      (clk' : list Z) :
  batch_start n k clk = Some (now, s, clk') ->
  exists skipped, clk = skipped ++ now :: clk'.
Proof.
  unfold batch_start. destruct clk as [| now0 rest]; [discriminate |].
  destruct (now0 =? time n).
  - destruct (_ >? _).
    + destruct (spin (time n) now0 rest) as [[now' clk''] |] eqn:Hspin;
        [| discriminate].
      intros E. injection E as <- <- <-.
      destruct (spin_spec _ _ _ _ _ Hspin) as [_ [sk [Hsk _]]]. eauto.
    + intros E. injection E as <- <- <-. now exists [].
  - intros E. injection E as <- <- <-. now exists [].
Qed.

Lemma consecutive_increasing (K : Z) (len : nat) :
  forall start,
    StronglySorted Z.lt (map (fun i => K + Z.of_nat i) (seq start len)).
Proof.
  induction len as [| len IH]; intros start; cbn [seq map]; constructor.
  - apply IH.
  - rewrite Forall_map, Forall_forall. intros i Hi. apply in_seq in Hi. lia.
Qed.

Lemma StronglySorted_app (R : Z -> Z -> Prop) (l1 l2 : list Z) :
  StronglySorted R l1 -> StronglySorted R l2 ->
  (forall a b, In a l1 -> In b l2 -> R a b) ->
  StronglySorted R (l1 ++ l2).
Proof.
  intros H1 H2 H12. induction H1 as [| a l1 Hs IH Hall]; [exact H2 |].
  cbn [app]. constructor.
  - apply IH. intros x y Hx Hy. apply H12; [now right | exact Hy].
  - apply Forall_app. split; [exact Hall |].
    rewrite Forall_forall. intros b Hb. apply H12; [now left | exact Hb].
Qed.

(** A later millisecond outranks every step of an earlier one. *)
Lemma key_later_ms (n : Node) (now : Z) :
  node_ok n -> time n < now ->
  last_key n < now * 2 ^ timeShift n + node n * 2 ^ nodeShift n.
Proof.
  intros [(nb & sb & Hl) Hst] Hlt. unfold last_key.
  destruct Hl as (Hnb & Hsb & Hsum & Hmax & Hmask & Hsm & Hts & Hns & Hnd).
  assert (HA : 0 < 2 ^ sb) by (apply Z.pow_pos_nonneg; lia).
  assert (HP : 2 ^ sb <= 2 ^ (nb + sb)) by (apply pow2_le; lia).
  rewrite Hts. assert (time n + 1 <= now) by lia. nia.
Qed.

(** One returning call on a steady generator: the generator stays steady,
    [lastTime] does not go back, and the identifiers issued are strictly
    increasing, not below the stamp of the old state and not above that of
    the new one (below it, for a batch). *)
Lemma run_call_steady (c : call) (w : World) (ids : list ID) (w' : World) :
  steady w -> run_call c w = Some (ids, w') ->
  steady w' /\ time (gen w) <= time (gen w') /\
  last_key (gen w) <= last_key (gen w') /\
  StronglySorted Z.lt (map unsigned ids) /\
  Forall (fun id => last_key (gen w) <= unsigned id <= last_key (gen w')) ids /\
  (forall count, c = CallGenerateBatch count ->
                 Forall (fun id => unsigned id < last_key (gen w')) ids).
Proof.
  destruct w as [n clk]. cbn [gen clock].
  intros (Hok & Hclk & Htime) Hrun. cbn [gen clock] in Hok, Hclk, Htime.
  destruct c as [| count]; cbn [run_call] in Hrun; unfold bind, ret in Hrun.
  - destruct (Generate (mkWorld n clk)) as [[id w1] |] eqn:Hg; [| discriminate].
    injection Hrun as <- <-.
    destruct (Generate_increases n clk id w1 Hok Hclk Hg)
      as (Hok1 & Hsame & Hclk1 & Htime1 & Hid & Hlt).
    specialize (Hlt Htime).
    destruct (Generate_issues n clk id w1 Hok Hg)
      as (now & s & sk & _ & Hw & _ & Hc & _).
    assert (Hge : time n <= time (gen w1)).
    { rewrite Hw. cbn [issued time]. rewrite Hc in Htime.
      apply Forall_app in Htime. destruct Htime as [_ Htime].
      apply Forall_cons_iff in Htime. tauto. }
    split; [split; [exact Hok1 | split; [exact Hclk1 | exact Htime1]] |].
    split; [exact Hge |].
    split; [lia |]. split; [repeat constructor |].
    split; [constructor; [lia | constructor] | intros count E; discriminate].
  - destruct (GenerateBatch count (mkWorld n clk)) as [[r w1] |] eqn:Hg;
      [| discriminate].
    injection Hrun as <- <-.
    pose proof Hg as Hg'. rewrite GenerateBatch_eq in Hg.
    destruct (count <=? 0) eqn:H0.
    { injection Hg as <- <-. cbn [gen clock fst map].
      split; [split; [exact Hok | split; [exact Hclk | exact Htime]] |].
      split; [lia |]. split; [lia |]. split; [constructor |].
      split; [constructor | intros; constructor]. }
    destruct (count >? stepMask n) eqn:H1.
    { injection Hg as <- <-. cbn [gen clock fst map].
      split; [split; [exact Hok | split; [exact Hclk | exact Htime]] |].
      split; [lia |]. split; [lia |]. split; [constructor |].
      split; [constructor | intros; constructor]. }
    clear Hg. assert (Hk : 1 <= count <= stepMask n) by lia.
    destruct (GenerateBatch_issues n clk count r w1 Hok Hk Hg')
      as (now & s & clk' & Hstart & -> & ->).
    destruct (batch_start_spec n count clk now s clk' Hok Hk Hstart)
      as (Hs0 & Hsk & now0 & rest & Hclk0 & Hcases).
    destruct (batch_start_clock n count clk now s clk' Hstart) as [sk Hsk'].
    destruct Hclk as [Hsorted Hbound].
    rewrite Hsk' in Hsorted, Hbound, Htime.
    apply StronglySorted_app_r in Hsorted.
    apply StronglySorted_inv in Hsorted. destruct Hsorted as [Hsorted Hle].
    apply Forall_app in Hbound. destruct Hbound as [_ Hbound].
    apply Forall_cons_iff in Hbound. destruct Hbound as [Hnow Hbound].
    apply Forall_app in Htime. destruct Htime as [_ Htime].
    apply Forall_cons_iff in Htime. destruct Htime as [Hge _].
    cbv beta in Hge, Hnow. cbn [gen clock fst].
    set (K := now * 2 ^ timeShift n + node n * 2 ^ nodeShift n + s).
    assert (Hids : map unsigned
                     (map (fun i => pack (issued n now (s + Z.of_nat i)) now)
                          (seq 0 (Z.to_nat count))) =
                   map (fun i => K + Z.of_nat i) (seq 0 (Z.to_nat count))).
    { rewrite map_map. apply map_ext_in. intros i Hi. apply in_seq in Hi.
      rewrite (unsigned_pack (issued n now (s + Z.of_nat i)) now);
        [| apply node_ok_issued; [exact Hok | lia] | exact Hnow].
      cbn [issued node step timeShift nodeShift]. unfold K. ring. }
    assert (HK : last_key n <= K).
    { unfold K. rewrite Hclk0 in Hsk'.
      destruct Hcases as [(C1 & C2 & C3 & C4) | [(C1 & C2 & C3 & C4) | (C1 & C2 & C3)]].
      - pose proof (key_later_ms n now Hok C3). lia.
      - subst. unfold last_key. lia.
      - subst now0 s. assert (time n < now) by lia.
        pose proof (key_later_ms n now Hok H). lia. }
    assert (HK' : last_key (issued n now (s + count)) = K + count).
    { unfold last_key, K. cbn [issued time node step timeShift nodeShift]. ring. }
    split.
    { split; [apply node_ok_issued; [exact Hok | lia] |].
      split; [split; assumption | exact Hle]. }
    split; [exact Hge |]. split; [lia |].
    split; [rewrite Hids; apply consecutive_increasing |].
    assert (Hall : Forall (fun u => last_key n <= u < K + count)
                          (map (fun i => K + Z.of_nat i)
                               (seq 0 (Z.to_nat count)))).
    { rewrite Forall_map, Forall_forall. intros i Hi. apply in_seq in Hi. lia. }
    rewrite <- Hids, Forall_map in Hall. rewrite HK'. split.
    + eapply Forall_impl; [| exact Hall]. cbv beta. intros; lia.
    + intros _ _. eapply Forall_impl; [| exact Hall]. cbv beta. intros; lia.
Qed.

Lemma run_calls_steady (cs : list call) :
  forall w ids w',
    steady w -> run_calls cs w = Some (ids, w') ->
    steady w' /\ time (gen w) <= time (gen w') /\
    last_key (gen w) <= last_key (gen w') /\
    StronglySorted Z.le (map unsigned ids) /\
    Forall (fun id => last_key (gen w) <= unsigned id <= last_key (gen w')) ids.
Proof.
  induction cs as [| c rest IH]; intros w ids w' Hst Hrun.
  - cbn in Hrun. injection Hrun as <- <-.
    split; [exact Hst |]. split; [lia |]. split; [lia |].
    split; constructor.
  - cbn [run_calls] in Hrun. unfold bind at 1 in Hrun.
    destruct (run_call c w) as [[ids1 w1] |] eqn:Hc; [| discriminate].
    unfold bind at 1 in Hrun.
    destruct (run_calls rest w1) as [[ids2 w2] |] eqn:Hr; [| discriminate].
    injection Hrun as <- <-.
    destruct (run_call_steady c w ids1 w1 Hst Hc)
      as (Hst1 & Ht1 & Hk1 & Hs1 & Hb1 & _).
    destruct (IH w1 ids2 w2 Hst1 Hr) as (Hst2 & Ht2 & Hk2 & Hs2 & Hb2).
    split; [exact Hst2 |]. split; [lia |]. split; [lia |].
    rewrite Forall_forall in Hb1, Hb2. split.
    + rewrite map_app. apply StronglySorted_app.
      * apply (StronglySorted_weaken Z Z.lt Z.le); [intros; lia | exact Hs1].
      * exact Hs2.
      * intros a b Ha Hb. apply in_map_iff in Ha, Hb.
        destruct Ha as (ia & <- & Ha). destruct Hb as (ib & <- & Hb).
        specialize (Hb1 ia Ha). specialize (Hb2 ib Hb). lia.
    + apply Forall_app. split; rewrite Forall_forall; intros id Hid.
      * specialize (Hb1 id Hid). lia.
      * specialize (Hb2 id Hid). lia.
Qed.

Lemma NewNodeWithConfig_steady (cfg : Config.t) (n : Node) (clk : list Z) :
  Config.wf cfg -> NewNodeWithConfig cfg = Ok n -> clock_ok n clk ->
  steady (mkWorld n clk).
Proof.
  intros Hwf Hnew Hclk.
  destruct (NewNodeWithConfig_layout cfg n Hwf Hnew) as (_ & _ & Ht & _).
  split; [exact (NewNodeWithConfig_node_ok cfg n Hwf Hnew) |].
  split; [exact Hclk |]. cbn [gen clock]. rewrite Ht.
  destruct Hclk as [_ Hb]. eapply Forall_impl; [| exact Hb].
  cbv beta. intros; lia.
Qed.

(** X11.  Under a clock that does not step back, on a freshly constructed
    generator and at any point of any interleaving of [Generate] and
    [GenerateBatch] calls: the identifiers issued before and after that
    point are, together and in the order of issue, non-decreasing as
    unsigned magnitudes; [lastTime] after the later calls is not below
    [lastTime] at that point; and the clock left has not gone back behind
    [lastTime].  (Where a batch follows a single identifier within one
    millisecond the order is not strict.) *)
Theorem calls_monotone (cfg : Config.t) (n : Node) (cs1 cs2 : list call)
        (clk : list Z) (ids1 ids2 : list ID) (w1 w2 : World) :
  Config.wf cfg -> NewNodeWithConfig cfg = Ok n -> clock_ok n clk ->
  run_calls cs1 (mkWorld n clk) = Some (ids1, w1) ->
  run_calls cs2 w1 = Some (ids2, w2) ->
  StronglySorted Z.le (map unsigned (ids1 ++ ids2)) /\
  time n <= time (gen w1) /\
  time (gen w1) <= time (gen w2) /\
  steady w1 /\ steady w2.
Proof.
  intros Hwf Hnew Hclk Hrun1 Hrun2.
  pose proof (NewNodeWithConfig_steady cfg n clk Hwf Hnew Hclk) as Hst.
  destruct (run_calls_steady cs1 _ ids1 w1 Hst Hrun1)
    as (Hst1 & Ht1 & _ & Hs1 & Hb1).
  destruct (run_calls_steady cs2 _ ids2 w2 Hst1 Hrun2)
    as (Hst2 & Ht2 & _ & Hs2 & Hb2).
  cbn [gen] in Ht1.
  split; [| auto].
  rewrite map_app. apply StronglySorted_app; [exact Hs1 | exact Hs2 |].
  rewrite Forall_forall in Hb1, Hb2.
  intros a b Ha Hb. apply in_map_iff in Ha, Hb.
  destruct Ha as (ia & <- & Ha). destruct Hb as (ib & <- & Hb).
  specialize (Hb1 ia Ha). specialize (Hb2 ib Hb). lia.
Qed.

Lemma calls_monotone_witness :
  StronglySorted Z.le
    (map unsigned ([29380608; 29380608; 29380609] ++ [33574912])) /\
  time (issued scenario_node 7 2) <= time (issued scenario_node 8 0).
Proof.
  destruct (calls_monotone scenario_config scenario_node
              [CallGenerate; CallGenerateBatch 2] [CallGenerate] [7; 7; 8]
              [29380608; 29380608; 29380609] [33574912]
              (mkWorld (issued scenario_node 7 2) [8])
              (mkWorld (issued scenario_node 8 0) [])
              scenario_config_wf scenario_node_new
              ltac:(split; repeat constructor; cbn; lia)
              ltac:(vm_compute; reflexivity)
              ltac:(vm_compute; reflexivity)) as (Hs & _ & Ht & _).
  split; [exact Hs | exact Ht].
Defined.

Lemma run_batches_steady (counts : list Z) :
  forall w ids w',
    steady w -> run_calls (batches counts) w = Some (ids, w') ->
    steady w' /\ last_key (gen w) <= last_key (gen w') /\
    StronglySorted Z.lt (map unsigned ids) /\
    Forall (fun id => last_key (gen w) <= unsigned id < last_key (gen w')) ids.
Proof.
  induction counts as [| k rest IH]; intros w ids w' Hst Hrun.
  - cbn in Hrun. injection Hrun as <- <-.
    split; [exact Hst |]. split; [lia |]. split; constructor.
  - cbn [batches map run_calls] in Hrun. unfold bind at 1 in Hrun.
    destruct (run_call (CallGenerateBatch k) w) as [[ids1 w1] |] eqn:Hc;
      [| discriminate].
    unfold bind at 1 in Hrun. fold (batches rest) in Hrun.
    destruct (run_calls (batches rest) w1) as [[ids2 w2] |] eqn:Hr;
      [| discriminate].
    injection Hrun as <- <-.
    destruct (run_call_steady _ w ids1 w1 Hst Hc)
      as (Hst1 & _ & Hk1 & Hs1 & Hb1 & Hlt1).
    specialize (Hlt1 k eq_refl).
    destruct (IH w1 ids2 w2 Hst1 Hr) as (Hst2 & Hk2 & Hs2 & Hb2).
    split; [exact Hst2 |]. split; [lia |].
    rewrite Forall_forall in Hb1, Hb2, Hlt1. split.
    + rewrite map_app. apply StronglySorted_app; [exact Hs1 | exact Hs2 |].
      intros a b Ha Hb. apply in_map_iff in Ha, Hb.
      destruct Ha as (ia & <- & Ha). destruct Hb as (ib & <- & Hb).
      specialize (Hlt1 ia Ha). specialize (Hb2 ib Hb). lia.
    + apply Forall_app. split; rewrite Forall_forall; intros id Hid.
      * specialize (Hb1 id Hid). specialize (Hlt1 id Hid). lia.
      * specialize (Hb2 id Hid). lia.
Qed.

(** X12.  Under a clock that does not step back, the identifiers issued by
    successive [GenerateBatch] calls alone on a freshly constructed
    generator are strictly increasing across the batches, hence pairwise
    distinct. *)
Theorem batches_strictly_increasing (cfg : Config.t) (n : Node)
        (counts : list Z) (clk : list Z) (ids : list ID) (w' : World) :
  Config.wf cfg -> NewNodeWithConfig cfg = Ok n -> clock_ok n clk ->
  run_calls (batches counts) (mkWorld n clk) = Some (ids, w') ->
  StronglySorted Z.lt (map unsigned ids) /\ NoDup ids.
Proof.
  intros Hwf Hnew Hclk Hrun.
  pose proof (NewNodeWithConfig_steady cfg n clk Hwf Hnew Hclk) as Hst.
  destruct (run_batches_steady counts _ ids w' Hst Hrun) as (_ & _ & Hs & _).
  split; [exact Hs |].
  apply (NoDup_map_inv unsigned). now apply StronglySorted_lt_NoDup.
Qed.

Lemma batches_strictly_increasing_witness :
  NoDup [29380608; 29380609; 29380610; 29380611; 29380612].
Proof.
  apply (batches_strictly_increasing scenario_config scenario_node
           [2; 0; 3] [7; 7]
           [29380608; 29380609; 29380610; 29380611; 29380612]
           (mkWorld (issued scenario_node 7 5) [])).
  - exact scenario_config_wf.
  - exact scenario_node_new.
  - split; repeat constructor; cbn; lia.
  - vm_compute. reflexivity.
Defined.

(** ** Single calls *)

(** X13.  The identifier that [Generate] returns is the generator's new
    state in packed form: its step field is the new [lastStep], its node
    field the node and, where the new [lastTime] fits the timestamp field,
    its timestamp offset [id >> timeShift] is the new [lastTime]. *)
Theorem Generate_fields_are_state (n : Node) (clk : list Z) (id : ID)
        (w' : World) :
  node_ok n -> Generate (mkWorld n clk) = Some (id, w') ->
  Step id n = step (gen w') /\
  NodeID id n = node n /\
  (Int64.in_range (time (gen w') * 2 ^ timeShift n) ->
   TimeOffset id n = time (gen w')).
Proof.
  intros Hok Hgen. pose proof Hok as [(nb & sb & Hl) _].
  destruct (Generate_issues n clk id w' Hok Hgen)
    as (now & s & sk & Hid & Hw & Hs & _).
  rewrite Hw, Hid. cbn [issued step time].
  destruct (pack_fields (issued n now s) nb sb now
              (layout_issued n nb sb now s Hl) Hs) as (F1 & F2 & _ & F4).
  unfold Step, NodeID, TimeOffset in *.
  cbn [issued stepMask nodeMask nodeShift timeShift step node] in F1, F2, F4.
  split; [exact F1 |]. split; [exact F2 |].
  intros Hr.
  assert (Hts : timeShift n = nb + sb) by apply Hl.
  rewrite Hts in Hr. exact (F4 Hr).
Qed.

Lemma Generate_fields_are_state_witness :
  Step 29380609 scenario_node = 1 /\
  NodeID 29380609 scenario_node = 5 /\
  TimeOffset 29380609 scenario_node = 7.
Proof.
  destruct (Generate_fields_are_state (issued scenario_node 7 0) [7] 29380609
              (mkWorld (issued scenario_node 7 1) [])
              ltac:(apply node_ok_issued; [exact scenario_node_ok | cbn; lia])
              ltac:(vm_compute; reflexivity)) as (H1 & H2 & H3).
  split; [exact H1 |]. split; [exact H2 |].
  exact (H3 ltac:(vm_compute; split; discriminate)).
Defined.

(** X14.  [NewNode] succeeds exactly for a node between 0 and 1023, and
    then gives the generator of the default layout: 10 node bits and 12
    step bits, [lastTime] and [lastStep] 0. *)
Theorem NewNode_default (node : Z) :
  ((exists e, NewNode node = Err e) <-> (node < 0 \/ node > 1023)) /\
  (forall n, NewNode node = Ok n ->
             n = mkNode 0 node 0 1023 4190208 4095 22 12).
Proof.
  assert (E : NewNode node =
              if (node <? 0) || (node >? 1023)
              then Err (ErrNodeRange 1023)
              else Ok (mkNode 0 node 0 1023 4190208 4095 22 12))
    by reflexivity.
  rewrite E. destruct ((node <? 0) || (node >? 1023)) eqn:H.
  - apply orb_true_iff in H. split; [| discriminate].
    split; [intros _; lia | eauto].
  - apply orb_false_iff in H. split.
    + split; [intros [e He]; discriminate | lia].
    + intros n Hn. now injection Hn as <-.
Qed.

Lemma NewNode_default_witness :
  (exists e, NewNode 1024 = Err e) /\
  scenario_node = mkNode 0 5 0 1023 4190208 4095 22 12.
Proof.
  split.
  - apply (proj1 (NewNode_default 1024)). right. lia.
  - apply (proj2 (NewNode_default 5)). reflexivity.
Defined.

Lemma spin_reads_ahead (t now now' : Z) (rest clk' : list Z) :
  now <= t -> spin t now rest = Some (now', clk') -> In now' rest.
Proof.
  intros Hle Hspin.
  destruct (spin_spec _ _ _ _ _ Hspin) as [Hlt [sk [Hsk _]]].
  destruct sk as [| s0 sk'].
  - cbn in Hsk. injection Hsk as -> _. lia.
  - cbn in Hsk. injection Hsk as _ ->. apply in_or_app. right. now left.
Qed.

(** X15.  [Generate] reads the clock once and returns, stamped with that
    reading, unless the reading equals [lastTime] and [lastStep] has
    reached [stepMask]; in that case it returns only with a later reading,
    taken from those that follow, and step 0. *)
Theorem Generate_waits_only_when_exhausted (n : Node) (now : Z)
        (rest : list Z) :
  node_ok n ->
  ((now <> time n \/ step n < stepMask n) ->
   exists id n', Generate (mkWorld n (now :: rest)) = Some (id, mkWorld n' rest)
                 /\ time n' = now) /\
  (now = time n -> step n = stepMask n ->
   forall id w', Generate (mkWorld n (now :: rest)) = Some (id, w') ->
                 time n < time (gen w') /\ step (gen w') = 0 /\
                 In (time (gen w')) rest).
Proof.
  intros Hok. pose proof Hok as [(nb & sb & Hl) Hst].
  rewrite Generate_eq, (step_incr_no_wrap n Hok). cbv zeta.
  rewrite (stepMask_land n nb sb) by assumption.
  destruct Hl as (_ & Hsb & _ & _ & _ & Hsm & _).
  assert (HA : 0 < 2 ^ sb) by (apply Z.pow_pos_nonneg; lia).
  split.
  - intros Hcase. destruct (now =? time n) eqn:Hnow; [| eauto].
    apply Z.eqb_eq in Hnow. destruct Hcase as [Hne | Hlt]; [lia |].
    rewrite Z.mod_small by lia.
    assert (E : (step n + 1 =? 0) = false) by lia. rewrite E. eauto.
  - intros -> Hfull id w'. rewrite Z.eqb_refl.
    replace (step n + 1) with (2 ^ sb) by lia.
    rewrite Z.mod_same by lia. rewrite Z.eqb_refl.
    destruct (spin (time n) (time n) rest) as [[now' clk'] |] eqn:Hspin;
      [| discriminate].
    intros E. injection E as _ <-. cbn [gen issued time step].
    destruct (spin_spec _ _ _ _ _ Hspin) as [Hlt _].
    split; [exact Hlt |]. split; [reflexivity |].
    apply (spin_reads_ahead (time n) (time n) now' rest clk'); [lia | exact Hspin].
Qed.

Lemma Generate_waits_only_when_exhausted_witness :
  (exists id n',
      Generate (mkWorld scenario_node [7; 7]) = Some (id, mkWorld n' [7]) /\
      time n' = 7) /\
  (time (issued scenario_node 7 4095) < 9 /\ In 9 [7; 9]).
Proof.
  split.
  - apply (proj1 (Generate_waits_only_when_exhausted scenario_node 7 [7]
                    scenario_node_ok)).
    left. cbn. lia.
  - destruct (proj2 (Generate_waits_only_when_exhausted
                       (issued scenario_node 7 4095) 7 [7; 9]
                       ltac:(apply node_ok_issued;
                             [exact scenario_node_ok | cbn; lia]))
                    eq_refl eq_refl 37769216
                    (mkWorld (issued scenario_node 9 0) [])
                    ltac:(vm_compute; reflexivity)) as (H1 & _ & H3).
    split; [exact H1 | exact H3].
Defined.

(** ** Parsing Base64 text of any length *)

Lemma be_step_mod (x : Z) (b : byte) :
  Z.lor (Uint64.wrap (Z.shiftl (x mod 2 ^ 64) 8)) (Z_of_byte b) =
  (x * 256 + Z_of_byte b) mod 2 ^ 64.
Proof.
  pose proof (Z_of_byte_range b) as Hb.
  unfold Uint64.wrap. rewrite Z.shiftl_mul_pow2 by lia.
  assert (E : (x mod 2 ^ 64 * 2 ^ 8) mod 2 ^ 64 = (x mod 2 ^ 56) * 256)
    by div_mod_lia.
  rewrite E. rewrite (lor_add 8) by div_mod_lia. div_mod_lia.
Qed.

Lemma be_fold_mod (data : list byte) :
  forall x,
    fold_left (fun id b => Z.lor (Uint64.wrap (Z.shiftl id 8)) (Z_of_byte b))
              data (x mod 2 ^ 64) =
    (fold_left (fun a d => a * 256 + d) (map Z_of_byte data) x) mod 2 ^ 64.
Proof.
  induction data as [| b rest IH]; intros x; cbn [fold_left map];
    [reflexivity |].
  rewrite be_step_mod. apply IH.
Qed.

(** X16.  [ParseBase64] reads the base64 text of any number of bytes as a
    big-endian number and keeps its low 64 bits: bytes beyond the eighth
    from the end are shifted out, not reported. *)
Theorem ParseBase64_keeps_low_bits (data : list byte) :
  ParseBase64 (bytes_of (base64.EncodeToString data)) =
  (Int64.wrap (positional_value 256 (map Z_of_byte data)), None).
Proof.
  unfold ParseBase64.
  unfold string_of, bytes_of at 1. rewrite string_of_list_ascii_of_string.
  rewrite DecodeString_EncodeToString.
  change 0 with (0 mod 2 ^ 64) at 1. rewrite be_fold_mod.
  unfold Uint64.to_int64, positional_value. f_equal.
  apply wrap_congr. apply Z.mod_mod. lia.
Qed.

(** ** JSON numbers *)

(** X17.  [UnmarshalJSON] accepts the decimal form of an identifier also
    behind a plus sign, which is no JSON number; it rejects the decimal
    form of a number from 2^63 to 2^64 - 1 with a range error and then
    leaves the identifier it was called on unchanged. *)
Theorem UnmarshalJSON_sign_and_range (f x : ID) :
  (0 <= x <= Int64.max_int ->
   UnmarshalJSON f (bytes_of (String "+" (String_ x))) = (x, None)) /\
  (2 ^ 63 <= x <= Uint64.max_uint ->
   UnmarshalJSON f (strconv.formatBits_loop 10 x []) = (f, Some ErrRange)).
Proof.
  split.
  - intros Hx. unfold Int64.max_int in Hx.
    unfold UnmarshalJSON, String_, strconv.FormatInt.
    assert (Hneg : (x <? 0) = false) by lia. rewrite Hneg.
    unfold Uint64.of_int64, Uint64.wrap. rewrite Z.mod_small by lia.
    unfold string_of at 1, bytes_of. rewrite string_of_list_ascii_of_string.
    destruct (ParseUint_formatBits 10 x ltac:(lia)
                ltac:(unfold Uint64.max_uint; lia))
      as (c & s & E & _ & _ & Hp).
    rewrite E. unfold strconv.ParseInt.
    change (byte_eqb "+"%char "+"%char) with true.
    change (byte_eqb "+"%char "-"%char) with false.
    cbn [orb]. rewrite Hp. cbn [negb andb].
    assert (H1 : (x >=? 2 ^ 63) = false) by lia. rewrite H1.
    unfold Uint64.to_int64. rewrite wrap_small
      by (unfold Int64.in_range, Int64.min_int, Int64.max_int; lia).
    reflexivity.
  - intros Hx. unfold UnmarshalJSON.
    destruct (ParseUint_formatBits 10 x ltac:(lia) ltac:(lia))
      as (c & s & E & Hplus & Hminus & Hp).
    rewrite E. unfold strconv.ParseInt.
    rewrite Hplus, Hminus. cbn [orb]. rewrite Hp. cbn [negb andb].
    assert (H1 : (x >=? 2 ^ 63) = true) by lia. rewrite H1. reflexivity.
Qed.

Lemma UnmarshalJSON_sign_and_range_witness :
  UnmarshalJSON 3 (bytes_of "+42") = (42, None) /\
  UnmarshalJSON 3 (bytes_of "9223372036854775808") = (3, Some ErrRange).
Proof.
  split.
  - apply (proj1 (UnmarshalJSON_sign_and_range 3 42)).
    unfold Int64.max_int. lia.
  - apply (proj2 (UnmarshalJSON_sign_and_range 3 (2 ^ 63))).
    unfold Uint64.max_uint. lia.
Defined.
